(** * Threshold job board: the slug discoverer and the job fetcher

    A shallow embedding of the two offline Node.js scripts of the site,

    - the slug discoverer ([generateSlugCandidates], [makeRequest],
      [probeGreenhouse], [probeLever], [processFirm], its [main]), and
    - the job fetcher, [scripts/fetch-jobs.js] ([timeAgo], [extractType],
      [fetchGreenhouseJobs], [fetchLeverJobs], [fetchJSearchJobs],
      [normalize], [matchJSearchToFirms], its [main]),

    followed by the properties of the specification that concern them, and
    by further properties of the same code.

    Conventions of the embedding.

    - JavaScript strings are [string]s of ASCII characters: [toLowerCase],
      [trim] and the class [\s] act on the ASCII letters and the six ASCII
      white-space characters, and [length] counts characters.
    - Regular expressions are terms of the type [re], run by a backtracking
      matcher with JavaScript's priorities (leftmost start, greedy
      quantifiers, alternatives from left to right).
    - The network, the clock and the platform functions that the scripts
      call ([JSON.parse], [JSON.stringify], [new URL], [new Date]) are
      parameters; every function that uses one takes it as an argument.
    - Console output is not modelled. *)

From Stdlib Require Import ZArith QArith Ascii String.
From stdpp Require Import gmap strings list fin_maps.
From Equations Require Import Equations.

Local Open Scope string_scope.
Local Open Scope nat_scope.

(** ** JavaScript strings *)

Module Js.

Definition code (c : ascii) : nat := nat_of_ascii c.

(** [\s], restricted to ASCII: tab, line feed, vertical tab, form feed,
    carriage return, space. *)
Definition is_space (c : ascii) : bool :=
  let n := code c in ((9 <=? n) && (n <=? 13)) || (n =? 32).

Definition is_upper (c : ascii) : bool :=
  let n := code c in (65 <=? n) && (n <=? 90).

Definition is_lower (c : ascii) : bool :=
  let n := code c in (97 <=? n) && (n <=? 122).

Definition is_digit (c : ascii) : bool :=
  let n := code c in (48 <=? n) && (n <=? 57).

Definition lower_char (c : ascii) : ascii :=
  if is_upper c then ascii_of_nat (code c + 32) else c.

Fixpoint toLowerCase (s : string) : string :=
  match s with
  | EmptyString => EmptyString
  | String c s' => String (lower_char c) (toLowerCase s')
  end.

Fixpoint trimStart (s : string) : string :=
  match s with
  | EmptyString => EmptyString
  | String c s' => if is_space c then trimStart s' else s
  end.

Definition trimEnd (s : string) : string :=
  String.rev (trimStart (String.rev s)).

Definition trim (s : string) : string := trimEnd (trimStart s).

Fixpoint drop (n : nat) (s : string) : string :=
  match n, s with
  | O, _ => s
  | S n', String _ s' => drop n' s'
  | S _, EmptyString => EmptyString
  end.

(** [s.substring(0, n)] *)
Definition take (n : nat) (s : string) : string := String.substring 0 n s.

Definition endsWith (s suffix : string) : bool :=
  String.prefix (String.rev suffix) (String.rev s).

(** [s.includes(p)] *)
Fixpoint includes (s p : string) : bool :=
  String.prefix p s ||
  match s with
  | EmptyString => false
  | String _ s' => includes s' p
  end.

(** [mem c cs]: the character [c] occurs in [cs]; used for classes such as
    [[(),.]]. *)
Fixpoint mem (c : ascii) (cs : string) : bool :=
  match cs with
  | EmptyString => false
  | String d cs' => Ascii.eqb c d || mem c cs'
  end.

(** A value in a condition: [undefined], [null] and the empty string are
    falsy, every other string is truthy. *)
Definition truthy (o : option string) : bool :=
  match o with
  | Some s => negb (String.eqb s "")
  | None => false
  end.

(** [o || d] for an optional string. *)
Definition or_else (o : option string) (d : string) : string :=
  match o with
  | Some s => if String.eqb s "" then d else s
  | None => d
  end.

(** Decimal notation of an integer, as in string concatenation and template
    literals. *)
Fixpoint digits (fuel : nat) (n : N) (acc : string) : string :=
  match fuel with
  | O => acc
  | S f =>
      let d := String (ascii_of_N (48 + N.modulo n 10)) acc in
      if N.ltb n 10 then d else digits f (N.div n 10) d
  end.

Definition string_of_Z (z : Z) : string :=
  let n := Z.abs_N z in
  let body := digits (S (N.to_nat (N.log2 n))) n "" in
  if Z.ltb z 0 then String "-" body else body.

End Js.

(** ** Regular expressions *)

Module Re.

(** The fragment of the regular-expression syntax that the scripts use. *)
Inductive re : Type :=
  | Eps
  | Chr (p : ascii -> bool)     (* one character of a class *)
  | Seq (a b : re)
  | Alt (a b : re)              (* a|b *)
  | Star (a : re)               (* a*, greedy *)
  | Grp (a : re)                (* the capturing group (a) *)
  | Bol                         (* ^ *)
  | Eol.                        (* $ *)

Definition Plus (a : re) : re := Seq a (Star a).
Definition Opt (a : re) : re := Alt a Eps.

(** A literal, and a literal under the flag [i]. *)
Fixpoint Lit (s : string) : re :=
  match s with
  | EmptyString => Eps
  | String c s' => Seq (Chr (Ascii.eqb c)) (Lit s')
  end.

Fixpoint LitI (s : string) : re :=
  match s with
  | EmptyString => Eps
  | String c s' =>
      Seq (Chr (fun d => Ascii.eqb (Js.lower_char d) (Js.lower_char c))) (LitI s')
  end.

Definition Class (cs : string) : re := Chr (fun c => Js.mem c cs).
Definition space : re := Chr Js.is_space.

(** The span of the capturing group, as a pair of positions. *)
Definition capture : Type := option (nat * nat).

(** The iterations of a star whose body is [body], followed by [k]; greedy:
    one more iteration is tried first. An iteration that consumes nothing
    is refused, as in JavaScript, so that the length of the input bounds
    the number of iterations. *)
Fixpoint iterate {R : Type}
    (body : nat -> string -> capture ->
            (nat -> string -> capture -> option R) -> option R)
    (k : nat -> string -> capture -> option R)
    (fuel : nat) (i : nat) (s : string) (cap : capture) : option R :=
  match fuel with
  | O => k i s cap
  | S fuel' =>
      match body i s cap
              (fun j t c => if j =? i then None else iterate body k fuel' j t c) with
      | Some x => Some x
      | None => k i s cap
      end
  end.

(** [run r i s cap k]: match [r] against [s], the input from position [i]
    on, and pass the position after the match, the rest of the input and
    the capture to [k]; the first success in priority order wins. *)
Fixpoint run {R : Type} (r : re) (i : nat) (s : string) (cap : capture)
    (k : nat -> string -> capture -> option R) : option R :=
  match r with
  | Eps => k i s cap
  | Chr p =>
      match s with
      | String c s' => if p c then k (S i) s' cap else None
      | EmptyString => None
      end
  | Seq a b => run a i s cap (fun j t c => run b j t c k)
  | Alt a b =>
      match run a i s cap k with
      | Some x => Some x
      | None => run b i s cap k
      end
  | Star a => iterate (run a) k (S (String.length s)) i s cap
  | Grp a => run a i s cap (fun j t _ => k j t (Some (i, j)))
  | Bol => if i =? 0 then k i s cap else None
  | Eol => match s with EmptyString => k i s cap | _ => None end
  end.

(** The end of the match of [r] that starts at position [i]. *)
Definition match_at (r : re) (i : nat) (s : string) : option (nat * capture) :=
  run r i s None (fun j _ c => Some (j, c)).

(** The leftmost match at or after position [i]: start, end, capture. *)
Fixpoint search (r : re) (i : nat) (s : string) : option (nat * nat * capture) :=
  match match_at r i s with
  | Some (j, c) => Some (i, j, c)
  | None =>
      match s with
      | EmptyString => None
      | String _ s' => search r (S i) s'
      end
  end.

(** [r.test(s)] *)
Definition test (r : re) (s : string) : bool :=
  match search r 0 s with Some _ => true | None => false end.

(** [s.match(r)[1]] for a regular expression without the flag [g]. *)
Definition match1 (r : re) (s : string) : option string :=
  match search r 0 s with
  | Some (_, _, Some (b, e)) => Some (String.substring b (e - b) s)
  | _ => None
  end.

(** [s.replace(r, rep)] without the flag [g]: the first match only. *)
Definition replace (r : re) (rep : string) (s : string) : string :=
  match search r 0 s with
  | Some (b, e, _) => Js.take b s ++ rep ++ Js.drop e s
  | None => s
  end.

(** [s.replace(r, rep)] under the flag [g]; [s] is the input from position
    [i] on. After an empty match the search resumes one character later. *)
Fixpoint replace_from (fuel : nat) (r : re) (rep : string) (i : nat) (s : string)
    : string :=
  match fuel with
  | O => s
  | S fuel' =>
      match search r i s with
      | None => s
      | Some (b, e, _) =>
          let pre := Js.take (b - i) s in
          if e =? b then
            match Js.drop (b - i) s with
            | EmptyString => pre ++ rep
            | String c t => pre ++ rep ++ String c (replace_from fuel' r rep (S b) t)
            end
          else pre ++ rep ++ replace_from fuel' r rep e (Js.drop (e - i) s)
      end
  end.

Definition replace_g (r : re) (rep : string) (s : string) : string :=
  replace_from (S (String.length s)) r rep 0 s.

(** The number of matches, [(s.match(r) || []).length] under the flag [g],
    for an [r] that matches no empty string. *)
Fixpoint count_from (fuel : nat) (r : re) (i : nat) (s : string) : nat :=
  match fuel with
  | O => 0
  | S fuel' =>
      match search r i s with
      | None => 0
      | Some (b, e, _) =>
          if e =? b then 0 else S (count_from fuel' r e (Js.drop (e - i) s))
      end
  end.

Definition count_g (r : re) (s : string) : nat :=
  count_from (S (String.length s)) r 0 s.

(** [s.split(r)[0]] for an [r] that matches no empty string: the input up
    to the first separator. *)
Definition split_head (r : re) (s : string) : string :=
  match search r 0 s with
  | Some (b, _, _) => Js.take b s
  | None => s
  end.

End Re.

(** ** Data model *)

Set Warnings "-register-all".

(** A decoded JSON value. An object keeps its members in the order of the
    text; [JSON.parse] lets the last of several members of one name win. *)
Inductive json : Type :=
  | JNull
  | JBool (b : bool)
  | JNum (q : Q)
  | JStr (s : string)
  | JArr (items : list json)
  | JObj (members : list (string * json)).

(** [v.k] for a value [v] that is neither [null] nor [undefined], and a name
    [k] that is no index, not ["length"] and no method: the member of an
    object, [undefined] ([None]) for every other value. *)
Definition prop (k : string) (v : json) : option json :=
  match v with
  | JObj members =>
      snd <$> last (filter (λ m, String.eqb (fst m) k = true) members)
  | _ => None
  end.

(** The truth value of a JSON value in a condition. *)
Definition truthy (v : json) : bool :=
  match v with
  | JNull => false
  | JBool b => b
  | JNum q => negb (Qeq_bool q 0)
  | JStr s => negb (String.eqb s "")
  | JArr _ | JObj _ => true
  end.

(** [Array.isArray(v)], for a [v] that may be [undefined]. *)
Definition isArray (v : option json) : bool :=
  match v with
  | Some (JArr _) => true
  | _ => false
  end.

(** A job posting in the common shape of the site. The employment type of a
    Greenhouse posting may be any JSON value (see [extractType]). *)
Record job_record : Type := Job {
  title : string;
  type : json;
  salary : string;
  posted : string;
  url : string
}.

(** A firm record. The name is required, the two slugs and the website are
    optional strings, the remaining descriptive fields are optional JSON
    values that the scripts copy and never inspect. *)
Record firm_record : Type := Firm {
  id : option json;
  name : string;
  city : option json;
  state : option json;
  lat : option json;
  lng : option json;
  size : option json;
  discipline : option json;
  specialties : option json;
  jobs : list job_record;
  website : option string;
  about : option json;
  greenhouse_slug : option string;
  lever_slug : option string
}.

(** [firm.greenhouse_slug = s], [firm.lever_slug = s], [firm.jobs = js] *)
Definition set_greenhouse_slug (s : string) (f : firm_record) : firm_record :=
  Firm (id f) (name f) (city f) (state f) (lat f) (lng f) (size f)
    (discipline f) (specialties f) (jobs f) (website f) (about f)
    (Some s) (lever_slug f).

Definition set_lever_slug (s : string) (f : firm_record) : firm_record :=
  Firm (id f) (name f) (city f) (state f) (lat f) (lng f) (size f)
    (discipline f) (specialties f) (jobs f) (website f) (about f)
    (greenhouse_slug f) (Some s).

Definition set_jobs (js : list job_record) (f : firm_record) : firm_record :=
  Firm (id f) (name f) (city f) (state f) (lat f) (lng f) (size f)
    (discipline f) (specialties f) js (website f) (about f)
    (greenhouse_slug f) (lever_slug f).

(** [firm.jobs.push(...more)] *)
Definition push_jobs (more : list job_record) (f : firm_record) : firm_record :=
  set_jobs (jobs f ++ more) f.

(** [items.slice(i, j)] *)
Definition slice {A : Type} (i j : nat) (items : list A) : list A :=
  take (j - i) (drop i items).

(** A JavaScript [Set] of strings in insertion order. *)
Definition set_add (x : string) (s : list string) : list string :=
  if decide (x ∈ s) then s else s ++ [x].

(** [items.sort(cmp)]: the sort is stable, and [a] goes before [b] when
    [cmp a b] is negative. *)
Fixpoint sort_insert {A : Type} (cmp : A -> A -> Z) (x : A) (sorted : list A)
    : list A :=
  match sorted with
  | [] => [x]
  | y :: rest =>
      if (cmp x y <=? 0)%Z then x :: y :: rest
      else y :: sort_insert cmp x rest
  end.

Definition sort {A : Type} (cmp : A -> A -> Z) (items : list A) : list A :=
  foldr (sort_insert cmp) [] items.

(** ** The slug discoverer *)

Module Discoverer.

Import Re.

Definition CONCURRENCY : nat := 5.

Definition suffixes : list string :=
  ["inc."; "inc"; "llc"; "architecture"; "architects"; "design"; "group";
   "firm"; "company"].

(** The regular expressions of [generateSlugCandidates]. *)

(* The acronym in parentheses: an opening parenthesis, the captured group
   "[A-Z]+" followed by any number of "\s+[A-Z]+", a closing parenthesis. *)
Definition re_acronym : re :=
  Seq (Lit "(")
    (Seq (Grp (Seq (Plus (Chr Js.is_upper))
                 (Star (Seq (Plus space) (Plus (Chr Js.is_upper))))))
       (Lit ")")).

(* "/\s+/g" *)
Definition re_spaces : re := Plus space.

(* "/\s+&\s+/g" *)
Definition re_amp_spaced : re := Seq (Plus space) (Seq (Lit "&") (Plus space)).

(* "/\s*&\s*/g" *)
Definition re_amp : re := Seq (Star space) (Seq (Lit "&") (Star space)).

(* "/\s*\+\s*/g" *)
Definition re_plus : re := Seq (Star space) (Seq (Lit "+") (Star space)).

(* "/\s*\|\s*/g" *)
Definition re_bar : re := Seq (Star space) (Seq (Lit "|") (Star space)).

(* "/[(),.\[\]]/g" *)
Definition re_punct : re := Class "(),.[]".

(* "/-+/g" *)
Definition re_hyphens : re := Plus (Lit "-").

(* "/^-+|-+$/g" *)
Definition re_edge_hyphens : re :=
  Alt (Seq Bol (Plus (Lit "-"))) (Seq (Plus (Lit "-")) Eol).

(* "/-/g" *)
Definition re_hyphen : re := Lit "-".

(* "/[\s&|+,()]+/" *)
Definition re_delims : re :=
  Plus (Chr (λ c, Js.is_space c || Js.mem c "&|+,()")).

(** The comparison of the final sort: shorter first, then fewer hyphens. *)
Definition compare_slugs (a b : string) : Z :=
  if negb (String.length a =? String.length b)
  then Z.of_nat (String.length a) - Z.of_nat (String.length b)
  else Z.of_nat (count_g re_hyphen a) - Z.of_nat (count_g re_hyphen b).

Section Candidates.

(** [new URL(website).hostname]; [None] when the constructor throws. *)
Variable URL_hostname : string -> option string.

Definition generateSlugCandidates (firm : firm_record) : list string :=
  let candidates : list string := [] in
  let name := name firm in
  let website := website firm in
  (* Extract domain from website if available *)
  let candidates :=
    if Js.truthy website then
      match URL_hostname (default "" website) with
      | Some hostname =>
          let domain := split_head (Lit ".") (replace (Lit "www.") "" hostname) in
          if negb (String.eqb domain "") && (0 <? String.length domain)
          then set_add (Js.toLowerCase domain) candidates
          else candidates
      | None => candidates
      end
    else candidates in
  (* Clean the firm name *)
  let cleanName := Js.trim (Js.toLowerCase name) in
  (* Remove common suffixes *)
  let baseName :=
    match List.find (Js.endsWith cleanName) suffixes with
    | Some suffix =>
        Js.trim (Js.take (String.length cleanName - String.length suffix) cleanName)
    | None => cleanName
    end in
  (* Strategy 1: Extract acronyms from parentheses *)
  let candidates :=
    match match1 re_acronym name with
    | Some group => set_add (replace_g re_spaces "" (Js.toLowerCase group)) candidates
    | None => candidates
    end in
  (* Strategy 2: Base name *)
  let candidates :=
    if negb (String.eqb baseName cleanName) then set_add baseName candidates
    else candidates in
  (* Strategy 3: Replace special characters *)
  let normalized :=
    replace_g re_edge_hyphens ""
      (replace_g re_hyphens "-"
         (replace_g re_spaces "-"
            (replace_g re_punct ""
               (replace_g re_bar ""
                  (replace_g re_plus "-and-"
                     (replace_g re_amp ""
                        (replace_g re_amp_spaced "-and-" cleanName))))))) in
  let candidates := set_add normalized candidates in
  (* Strategy 4: Without hyphens *)
  let candidates := set_add (replace_g re_hyphen "" normalized) candidates in
  (* Strategy 5: first word *)
  let firstWord := split_head re_delims cleanName in
  let candidates :=
    if negb (String.eqb firstWord "") && (1 <? String.length firstWord)
    then set_add firstWord candidates
    else candidates in
  (* Strategy 6: Handle "and" variant *)
  let withAnd :=
    replace_g (Lit "-and-") "-and-" (replace_g (Lit "and") "and" normalized) in
  let candidates := set_add withAnd candidates in
  (* Filter out empty strings and sort *)
  sort compare_slugs
    (filter (λ s, negb (String.eqb s "") && (0 <? String.length s) = true)
       candidates).

End Candidates.

(** What the network does with one GET request. *)
Inductive outcome : Type :=
  | Response (statusCode : Z) (body : string)   (* the response ended *)
  | Failed (message : string)                   (* the request emitted 'error' *)
  | TimedOut.                                   (* the request emitted 'timeout' *)

(** The object that [makeRequest] resolves to; [data] is [JNull] where the
    source has [null]. *)
Record result : Type := Result {
  status : option Z;
  data : json;
  error : option string
}.

(** The value a probe resolves to: [{ found: true, slug }] or
    [{ found: false }]. *)
Inductive probe : Type :=
  | Found (slug : string)
  | NotFound.

Definition found (p : probe) : bool :=
  match p with
  | Found _ => true
  | NotFound => false
  end.

(** The value [processFirm] resolves to. *)
Record matches : Type := Matches {
  greenhouse : bool;
  lever : bool
}.

(** The counters of the summary. *)
Record tally : Type := Tally {
  n_greenhouse : nat;
  n_lever : nat;
  n_noMatch : nat
}.

Definition greenhouse_url (slug : string) : string :=
  "https://boards-api.greenhouse.io/v1/boards/" ++ slug ++ "/jobs".

Definition lever_url (slug : string) : string :=
  "https://api.lever.co/v0/postings/" ++ slug ++ "?mode=json".

Section Probes.

(** [JSON.parse]; [None] when it throws. *)
Variable JSON_parse : string -> option json.

(** The answers of the network to the requests of one firm, by URL. The
    probes of one firm ask for each URL once, so every behaviour of the
    network towards that firm is such a function. *)
Variable http_get : string -> outcome.

Variable URL_hostname : string -> option string.

Definition makeRequest (url : string) : result :=
  match http_get url with
  | Response statusCode body =>
      match JSON_parse body with
      | Some parsed => Result (Some statusCode) parsed None
      | None => Result (Some statusCode) JNull (Some "Invalid JSON")
      end
  | Failed message => Result None JNull (Some message)
  | TimedOut => Result None JNull (Some "Timeout")
  end.

Definition probeGreenhouse (slug : string) : probe :=
  let result := makeRequest (greenhouse_url slug) in
  if bool_decide (status result = Some 200%Z)
     && truthy (data result)
     && isArray (prop "jobs" (data result))
  then Found slug
  else NotFound.

Definition probeLever (slug : string) : probe :=
  let result := makeRequest (lever_url slug) in
  if bool_decide (status result = Some 200%Z) && isArray (Some (data result))
  then Found slug
  else NotFound.

(** The loop over the candidates, with the firm and the two flags as its
    state. *)
Fixpoint try_candidates (candidates : list string) (firm : firm_record)
    (foundGreenhouse foundLever : bool) : firm_record * bool * bool :=
  match candidates with
  | [] => (firm, foundGreenhouse, foundLever)
  | candidate :: rest =>
      let '(firm, foundGreenhouse) :=
        if negb foundGreenhouse && found (probeGreenhouse candidate)
        then (set_greenhouse_slug candidate firm, true)
        else (firm, foundGreenhouse) in
      let '(firm, foundLever) :=
        if negb foundLever && found (probeLever candidate)
        then (set_lever_slug candidate firm, true)
        else (firm, foundLever) in
      if foundGreenhouse && foundLever then (firm, foundGreenhouse, foundLever)
      else try_candidates rest firm foundGreenhouse foundLever
  end.

(** [processFirm] returns the firm as it has mutated it, and its result. *)
Definition processFirm (firm : firm_record) (index : nat) : firm_record * matches :=
  let candidates := generateSlugCandidates URL_hostname firm in
  let '(firm, foundGreenhouse, foundLever) :=
    try_candidates candidates firm false false in
  (* If no match found via API, set best slug candidate *)
  let firm :=
    match candidates with
    | first :: _ =>
        if negb foundGreenhouse && negb foundLever
        then set_greenhouse_slug first firm
        else firm
    | [] => firm
    end in
  (firm, Matches foundGreenhouse foundLever).

End Probes.

Definition DATA_FILE : string := "data/firms-base.json".

(** The update of the counters for one result, the body of the [forEach]. *)
Definition count (results : tally) (result : matches) : tally :=
  if greenhouse result
  then Tally (S (n_greenhouse results)) (n_lever results) (n_noMatch results)
  else if lever result
  then Tally (n_greenhouse results) (S (n_lever results)) (n_noMatch results)
  else Tally (n_greenhouse results) (n_lever results) (S (n_noMatch results)).

(** The firms of a batch are the objects of [data] at the positions from
    [i] on: what [processFirm] did to them is written back there. *)
Definition store_batch (i : nat) (batch : list firm_record)
    (data : list firm_record) : list firm_record :=
  foldr (λ '(idx, firm) data, <[i + idx := firm]> data) data (imap pair batch).

Lemma length_store_batch i batch data :
  length (store_batch i batch data) = length data.
Proof.
  unfold store_batch. generalize (imap pair batch) as l.
  induction l as [|[idx f] l IH]; simpl; [done|].
  by rewrite length_insert.
Qed.

Section Main.

Variable JSON_parse : string -> option json.
Variable URL_hostname : string -> option string.

(** The answers of the network, by the index of the firm whose probe
    asks, and by URL. The firms of a batch run interleaved, but each
    touches its own record only, so that what it does depends on the
    answers to its own requests alone. *)
Variable network : nat -> string -> outcome.

(** [JSON.parse] of the text of the data file, read as firm records
    ([None] when it throws), and [JSON.stringify(data, null, 2)]. *)
Variable read_firms : string -> option (list firm_record).
Variable write_firms : list firm_record -> string.

(** The [for] loop of [main], from [i] on. *)
Equations? batches (i : nat) (data : list firm_record) (results : tally)
    : list firm_record * tally by wf (length data - i) lt :=
  batches i data results with decide (i < length data) := {
    | left _ =>
        let batch := slice i (i + CONCURRENCY) data in
        let batchResults :=
          imap (λ idx firm,
                  processFirm JSON_parse (network (i + idx)) URL_hostname
                    firm (i + idx)) batch in
        batches (i + CONCURRENCY)
          (store_batch i (fst <$> batchResults) data)
          (foldl count results (snd <$> batchResults));
    | right _ => (data, results) }.
Proof. rewrite length_store_batch. unfold CONCURRENCY. lia. Qed.

(** [main]: the files after the run and the counters of the summary;
    [None] when the run ends in the [catch] of [main]. *)
Definition main (files : gmap string string)
    : option (gmap string string * tally) :=
  match files !! DATA_FILE with
  | None => None
  | Some text =>
      match read_firms text with
      | None => None
      | Some data =>
          let '(data, results) := batches 0 data (Tally 0 0 0) in
          Some (<[DATA_FILE := write_firms data]> files, results)
      end
  end.

End Main.

End Discoverer.

(** ** The job fetcher *)

(** A posting of a Greenhouse board, with the fields that the fetcher
    reads. [None] stands for a field that is missing or [null]. *)
Module Gh.
Record meta : Type := Meta {
  name : option string;
  value : json
}.
Record department : Type := Department {
  dept_name : option string
}.
Record posting : Type := Posting {
  title : option string;
  metadata : option (list meta);
  departments : option (list department);
  updated_at : option string;
  absolute_url : option string
}.
End Gh.

(** A posting of Lever; [createdAt] is a time in milliseconds. *)
Module Lv.
Record categories : Type := Categories {
  commitment : option string
}.
Record posting : Type := Posting {
  text : option string;
  categories_of : option categories;
  createdAt : option Z;
  hostedUrl : option string
}.
End Lv.

(** A result of the aggregator; the salary bounds are whole amounts. *)
Module JSearch.
Record result : Type := Result {
  employer_name : option string;
  job_title : option string;
  job_employment_type : option string;
  job_min_salary : option Z;
  job_max_salary : option Z;
  job_posted_at_datetime_utc : option string;
  job_apply_link : option string;
  job_city : option string;
  job_state : option string;
  job_country : option string
}.
End JSearch.

Module Fetcher.

Import Re.

Definition FIRMS_BASE : string := "data/firms-base.json".
Definition OUTPUT : string := "mapvoid/firms.json".
Definition DISCOVERIES : string := "data/jsearch-discoveries.json".

Definition CONCURRENCY : nat := 5.

(** What [fetchWithTimeout] resolves to, with the body as the caller reads
    it after [resp.json()]. *)
Inductive reply (A : Type) : Type :=
  | NoReply                                 (* null: the fetch failed or was aborted *)
  | Reply (status : Z) (body : option A).   (* body [None]: [resp.json()] rejects *)
Arguments NoReply {A}.
Arguments Reply {A} status body.

(** [resp.ok] *)
Definition ok (status : Z) : bool := (200 <=? status)%Z && (status <=? 299)%Z.

(** Where a posting is put into the common shape: the board of a slug, or
    the aggregator pass. *)
Inductive site : Type :=
  | AtGreenhouse (slug : string)
  | AtLever (slug : string)
  | AtJSearch.

(** The world of one run: the answers of the three endpoints, the readings
    of the clock, and the environment variable. A body is given at the type
    at which its caller reads it: the array [data.jobs] of a Greenhouse
    board, the top-level array of Lever, the array [data.data] of the
    aggregator, each [None] when the decoded body has no such array. The
    clock is read once for every posting with a date, [clock w s k] being
    the reading for the [k]-th posting normalised at [s]. *)
Record world : Type := World {
  greenhouse_api : string -> reply (option (list Gh.posting));
  lever_api : string -> reply (option (list Lv.posting));
  jsearch_api : string -> string -> reply (option (list JSearch.result));
  clock : site -> nat -> Z;
  JSEARCH_API_KEY : option string
}.

(** The functions of the platform. *)
Record platform : Type := Platform {
  (* [new Date(s).getTime()], [None] for an invalid date *)
  Date_parse : string -> option Z;
  (* [new Date(t).toISOString()], [None] when it throws *)
  Date_toISOString : Z -> option string;
  (* [JSON.stringify(v, null, space)] *)
  JSON_stringify : json -> nat -> string;
  (* [JSON.parse] of the text of the firm database, read as firm records;
     [None] when it throws *)
  read_firms : string -> option (list firm_record)
}.

(** An unmatched discovery. *)
Record discovery : Type := Discovery {
  employer : string;
  d_city : string;
  d_state : string;
  d_country : string;
  d_job : job_record
}.

(** The text after the number of days in [timeAgo]. *)
Definition ago (days : Z) : string :=
  if (days =? 0)%Z then "Today"
  else if (days =? 1)%Z then "1 day ago"
  else if (days <? 7)%Z then Js.string_of_Z days ++ " days ago"
  else if (days <? 14)%Z then "1 week ago"
  else if (days <? 30)%Z then Js.string_of_Z (days / 7) ++ " weeks ago"
  else if (days <? 60)%Z then "1 month ago"
  else Js.string_of_Z (days / 30) ++ " months ago".

(* "/intern/i", "/part[\s-]?time/i", "/contract/i" *)
Definition re_intern : re := LitI "intern".
Definition re_part_time : re :=
  Seq (LitI "part")
    (Seq (Opt (Chr (λ c, Js.is_space c || Ascii.eqb c "-"))) (LitI "time")).
Definition re_contract : re := LitI "contract".

Definition extractType (ghJob : Gh.posting) : json :=
  (* Try to infer type from Greenhouse job metadata *)
  let from_metadata :=
    match Gh.metadata ghJob with
    | Some metadata =>
        List.find (λ m, Js.truthy (Gh.name m)
                        && Js.includes (Js.toLowerCase (default "" (Gh.name m))) "type"
                        && truthy (Gh.value m)) metadata
    | None => None
    end in
  match from_metadata with
  | Some m => Gh.value m
  | None =>
      (* Check departments *)
      let from_departments :=
        match Gh.departments ghJob with
        | Some (first :: _) =>
            let dept := Js.or_else (Gh.dept_name first) "" in
            if test re_intern dept then Some "Internship"
            else if test re_part_time dept then Some "Part-time"
            else if test re_contract dept then Some "Contract"
            else None
        | _ => None
        end in
      match from_departments with
      | Some t => JStr t
      | None =>
          (* Check title *)
          let title := Js.toLowerCase (Js.or_else (Gh.title ghJob) "") in
          if test re_intern title then JStr "Internship"
          else if test re_part_time title then JStr "Part-time"
          else if test re_contract title then JStr "Contract"
          else JStr "Full-time"
      end
  end.

(* "/[^a-z0-9]/g" and
   "/(inc|llc|architects|architecture|design|studio|group|associates|partnership|consulting)$/g" *)
Definition re_not_alnum : re := Chr (λ c, negb (Js.is_lower c || Js.is_digit c)).
Definition re_firm_suffix : re :=
  Seq (Grp (Alt (Lit "inc") (Alt (Lit "llc") (Alt (Lit "architects")
        (Alt (Lit "architecture") (Alt (Lit "design") (Alt (Lit "studio")
        (Alt (Lit "group") (Alt (Lit "associates") (Alt (Lit "partnership")
        (Lit "consulting"))))))))))) Eol.

(** Normalize company name for fuzzy matching *)
Definition normalize (name : option string) : string :=
  replace_g re_firm_suffix ""
    (replace_g re_not_alnum "" (Js.toLowerCase (Js.or_else name ""))).

(** [encodeURIComponent], on ASCII text. *)
Definition hex_digit (n : nat) : ascii :=
  if n <? 10 then ascii_of_nat (48 + n) else ascii_of_nat (55 + n).

Fixpoint encodeURIComponent (s : string) : string :=
  match s with
  | EmptyString => EmptyString
  | String c s' =>
      if Js.is_lower c || Js.is_upper c || Js.is_digit c || Js.mem c "-_.!~*'()"
      then String c (encodeURIComponent s')
      else String "%" (String (hex_digit (Js.code c / 16))
                         (String (hex_digit (Js.code c mod 16))
                            (encodeURIComponent s')))
  end.

Definition queries : list string :=
  ["architect jobs united states";
   "landscape architect jobs united states";
   "urban designer jobs united states"].

Definition jsearch_url (q : string) : string :=
  "https://jsearch.p.rapidapi.com/search?query=" ++ encodeURIComponent q
  ++ "&page=1&num_pages=2&country=us&date_posted=week".

(** [Math.round(x / 1000)] for a whole [x]. *)
Definition round_thousands (x : Z) : Z := ((x + 500) / 1000)%Z.

(** A whole number in a condition. *)
Definition nonzero (o : option Z) : bool :=
  match o with
  | Some x => negb (x =? 0)%Z
  | None => false
  end.

(** The references to the objects of an array that satisfy [p]: an object
    of [firms] is referred to by its position. *)
Definition refs_where {A : Type} (p : A -> bool) (items : list A) : list nat :=
  fst <$> filter (λ x, p (snd x) = true) (imap pair items).

(** Process items in batches with concurrency limit: the loop of
    [batchProcess] from [i] on. The handlers of a batch run interleaved;
    each of them touches the record of its own firm only, so that they are
    run here one after the other. *)
Equations? batchProcess {S A : Type} (items : list A) (fn : A -> S -> S)
    (i : nat) (st : S) : S by wf (length items - i) lt :=
  batchProcess items fn i st with decide (i < length items) := {
    | left _ =>
        let batch := slice i (i + CONCURRENCY) items in
        batchProcess items fn (i + CONCURRENCY) (foldl (λ st x, fn x st) st batch);
    | right _ => st }.
Proof. unfold CONCURRENCY. lia. Qed.

Section Pipeline.

Variable P : platform.
Variable w : world.

Definition timeAgo (now : Z) (dateStr : string) : string :=
  match Date_parse P dateStr with
  | Some then_ => ago ((now - then_) / 86400000)
  | None => "NaN months ago"
  end.

Definition fetchGreenhouseJobs (slug : option string) : list job_record :=
  if negb (Js.truthy slug) then [] else
  let slug := default "" slug in
  let url := "https://boards-api.greenhouse.io/v1/boards/" ++ slug ++ "/jobs" in
  match greenhouse_api w url with
  | NoReply => []
  | Reply status body =>
      if negb (ok status) then [] else
      match body with
      | Some (Some jobs) =>
          imap (λ k j,
                  Job (Js.or_else (Gh.title j) "Untitled")
                    (extractType j)
                    "See listing"
                    (if Js.truthy (Gh.updated_at j)
                     then timeAgo (clock w (AtGreenhouse slug) k)
                            (default "" (Gh.updated_at j))
                     else "Recently")
                    (Js.or_else (Gh.absolute_url j) "")) jobs
      | _ => []
      end
  end.

(** A posting of Lever in the common shape; [None] when [toISOString]
    throws. *)
Definition lever_job (now : Z) (j : Lv.posting) : option job_record :=
  posted ←
    (if nonzero (Lv.createdAt j) then
       timeAgo now <$> Date_toISOString P (default 0%Z (Lv.createdAt j))
     else Some "Recently");
  Some (Job (Js.or_else (Lv.text j) "Untitled")
          (JStr (Js.or_else (Lv.categories_of j ≫= Lv.commitment) "Full-time"))
          "See listing"
          posted
          (Js.or_else (Lv.hostedUrl j) "")).

Definition fetchLeverJobs (slug : option string) : list job_record :=
  if negb (Js.truthy slug) then [] else
  let slug := default "" slug in
  let url := "https://api.lever.co/v0/postings/" ++ slug ++ "?mode=json" in
  match lever_api w url with
  | NoReply => []
  | Reply status body =>
      if negb (ok status) then [] else
      match body with
      | Some (Some data) =>
          (* an exception in the callback of [map] is caught *)
          default []
            (mapM (λ kj, lever_job (clock w (AtLever slug) (fst kj)) (snd kj))
               (imap pair data))
      | _ => []
      end
  end.

Definition fetchJSearchJobs (apiKey : string) : list JSearch.result :=
  if String.eqb apiKey "" then [] else
  foldl (λ allJobs q,
           match jsearch_api w (jsearch_url q) apiKey with
           | NoReply => allJobs
           | Reply status body =>
               if negb (ok status) then allJobs else
               match body with
               | Some (Some data) => (allJobs ++ data)%list
               | _ => allJobs
               end
           end) [] queries.

(** The [Map] from normalized names to firms. *)
Definition firmIndex (firms : list firm_record) : gmap string nat :=
  foldl (λ index '(i, f), <[normalize (Some (name f)) := i]> index) ∅
    (imap pair firms).

Definition jsearch_job (now : Z) (j : JSearch.result) : job_record :=
  Job (Js.or_else (JSearch.job_title j) "Untitled")
    (JStr (Js.or_else (JSearch.job_employment_type j) "Full-time"))
    (if nonzero (JSearch.job_min_salary j) && nonzero (JSearch.job_max_salary j)
     then "$" ++ Js.string_of_Z (round_thousands (default 0%Z (JSearch.job_min_salary j)))
          ++ "K–$"
          ++ Js.string_of_Z (round_thousands (default 0%Z (JSearch.job_max_salary j)))
          ++ "K"
     else "See listing")
    (if Js.truthy (JSearch.job_posted_at_datetime_utc j)
     then timeAgo now (default "" (JSearch.job_posted_at_datetime_utc j))
     else "Recently")
    (Js.or_else (JSearch.job_apply_link j) "").

(** The body of the loop of [matchJSearchToFirms], for the [k]-th result
    [j]: it goes to the matched pairs, with the firm as a reference, or to
    the unmatched results. *)
Definition match_result (index : gmap string nat)
    (acc : list (nat * job_record) * list discovery)
    (kj : nat * JSearch.result) : list (nat * job_record) * list discovery :=
  let '(matched, unmatched) := acc in
  let '(k, j) := kj in
  let employer := Js.or_else (JSearch.employer_name j) "" in
  let key := normalize (Some employer) in
  let job := jsearch_job (clock w AtJSearch k) j in
  match index !! key with
  | Some firm => ((matched ++ [(firm, job)])%list, unmatched)
  | None =>
      (matched,
       (unmatched ++ [Discovery employer
                        (Js.or_else (JSearch.job_city j) "")
                        (Js.or_else (JSearch.job_state j) "")
                        (Js.or_else (JSearch.job_country j) "")
                        job])%list)
  end.

(** Match JSearch results to existing firms *)
Definition matchJSearchToFirms (jsearchJobs : list JSearch.result)
    (firms : list firm_record) : list (nat * job_record) * list discovery :=
  foldl (match_result (firmIndex firms)) ([], []) (imap pair jsearchJobs).

(** The handler of the Greenhouse pass, for the firm at [firm]. *)
Definition greenhouse_handler (firm : nat) (firms : list firm_record)
    : list firm_record :=
  match firms !! firm with
  | Some f =>
      let jobs := fetchGreenhouseJobs (greenhouse_slug f) in
      if 0 <? length jobs
      then <[firm := push_jobs jobs f]> firms
      else firms
  | None => firms
  end.

Definition greenhouse_pass (firms : list firm_record) : list firm_record :=
  let ghFirms := refs_where (λ f, Js.truthy (greenhouse_slug f)) firms in
  batchProcess ghFirms greenhouse_handler 0 firms.

(** The handler of the Lever pass. *)
Definition lever_handler (firm : nat) (firms : list firm_record)
    : list firm_record :=
  match firms !! firm with
  | Some f =>
      let jobs := fetchLeverJobs (lever_slug f) in
      if 0 <? length jobs
      then <[firm := push_jobs jobs f]> firms
      else firms
  | None => firms
  end.

Definition lever_pass (firms : list firm_record) : list firm_record :=
  let lvFirms := refs_where (λ f, Js.truthy (lever_slug f)) firms in
  batchProcess lvFirms lever_handler 0 firms.

(** Add matched jobs to firms, avoiding duplicates by title. *)
Definition add_matched (matched : list (nat * job_record))
    (firms : list firm_record) : list firm_record :=
  foldl (λ firms '(firm, job),
           match firms !! firm with
           | Some f =>
               if existsb (λ j, String.eqb (title j) (title job)) (jobs f)
               then firms
               else <[firm := push_jobs [job] f]> firms
           | None => firms
           end) firms matched.

(** The aggregator pass: the firms after it, and what it saves to the
    discoveries file, if it saves. *)
Definition jsearch_pass (firms : list firm_record)
    : list firm_record * option (list discovery) :=
  let apiKey := Js.or_else (JSEARCH_API_KEY w) "" in
  let jsearchRaw := fetchJSearchJobs apiKey in
  if 0 <? length jsearchRaw then
    let '(matched, unmatched) := matchJSearchToFirms jsearchRaw firms in
    (add_matched matched firms,
     if 0 <? length unmatched then Some unmatched else None)
  else (firms, None).

(** The firms in memory at the end of the passes, from the firms of the
    database, and the discoveries to save. *)
Definition passes (firms : list firm_record)
    : list firm_record * option (list discovery) :=
  (* Clear all existing jobs *)
  let firms := set_jobs [] <$> firms in
  jsearch_pass (lever_pass (greenhouse_pass firms)).

Definition json_of_job (j : job_record) : json :=
  JObj [("title", JStr (title j)); ("type", type j); ("salary", JStr (salary j));
        ("posted", JStr (posted j)); ("url", JStr (url j))].

Definition json_of_discovery (d : discovery) : json :=
  JObj [("employer", JStr (employer d)); ("city", JStr (d_city d));
        ("state", JStr (d_state d)); ("country", JStr (d_country d));
        ("job", json_of_job (d_job d))].

(** An object literal on its way to [JSON.stringify], which leaves out
    the members whose value is [undefined]. *)
Definition object (members : list (string * option json)) : json :=
  JObj (omap (λ m, pair (fst m) <$> snd m) members).

(** Strip internal fields (greenhouse_slug, lever_slug) from output *)
Definition output_record (f : firm_record) : json :=
  object
    [("id", id f);
     ("name", Some (JStr (name f)));
     ("city", city f);
     ("state", state f);
     ("lat", lat f);
     ("lng", lng f);
     ("size", size f);
     ("discipline", discipline f);
     ("specialties", specialties f);
     ("jobs", Some (JArr (json_of_job <$> jobs f)));
     ("website", JStr <$> website f);
     ("about", about f)].

(** [main]: the files after the run; [None] when the pipeline fails. *)
Definition main (files : gmap string string) : option (gmap string string) :=
  text ← files !! FIRMS_BASE;
  firms ← read_firms P text;
  let '(firms, unmatched) := passes firms in
  let files :=
    match unmatched with
    | Some unmatched =>
        <[DISCOVERIES :=
            JSON_stringify P (JArr (json_of_discovery <$> unmatched)) 2]> files
    | None => files
    end in
  let output := output_record <$> firms in
  Some (<[OUTPUT := JSON_stringify P (JArr output) 0]> files).

End Pipeline.

End Fetcher.

(** * Properties of the slug discoverer *)

Module DiscovererFacts.

Import Discoverer.

(** The shapes of a decoded body that the providers answer with. *)
Definition greenhouse_shape (v : json) : Prop :=
  ∃ jobs, prop "jobs" v = Some (JArr jobs).

Definition lever_shape (v : json) : Prop :=
  ∃ items, v = JArr items.

(** A capability match: the response ended with status 200 and its body
    decodes to a value of the expected shape. *)
Definition capability_match (JSON_parse : string -> option json)
    (shape : json -> Prop) (o : outcome) : Prop :=
  ∃ body v, o = Response 200 body ∧ JSON_parse body = Some v ∧ shape v.

(** Only an object has a member [jobs]. *)
Lemma greenhouse_shape_object v :
  greenhouse_shape v → ∃ members, v = JObj members.
Proof. intros [jobs H]. destruct v; try discriminate. by eexists. Qed.

Lemma greenhouse_shape_truthy v : greenhouse_shape v → truthy v = true.
Proof. intros [members ->]%greenhouse_shape_object. reflexivity. Qed.

Lemma isArray_Some v : isArray (Some v) = true ↔ lever_shape v.
Proof.
  split.
  - destruct v; try discriminate. by eexists.
  - by intros [items ->].
Qed.

Lemma isArray_prop v : isArray (prop "jobs" v) = true ↔ greenhouse_shape v.
Proof.
  unfold greenhouse_shape. split.
  - destruct (prop "jobs" v) as [[]|]; try discriminate. by eexists.
  - by intros [jobs ->].
Qed.

Section Probes.

Variable JSON_parse : string -> option json.
Variable http_get : string -> outcome.

Lemma probeGreenhouse_found slug :
  probeGreenhouse JSON_parse http_get slug = Found slug
  ↔ capability_match JSON_parse greenhouse_shape (http_get (greenhouse_url slug)).
Proof.
  unfold probeGreenhouse, makeRequest, capability_match. split.
  - destruct (http_get _) as [st body| |] eqn:Hget; simpl; try discriminate.
    destruct (JSON_parse body) as [v|] eqn:Hparse; simpl.
    + case_bool_decide as Hst; simpl; [|discriminate].
      destruct (truthy v); simpl; [|discriminate].
      destruct (isArray (prop "jobs" v)) eqn:Harr; [|discriminate].
      intros _. exists body, v. apply isArray_prop in Harr.
      injection Hst as ->. auto.
    + rewrite andb_false_r. discriminate.
  - intros (body & v & -> & -> & Hshape). simpl.
    rewrite (greenhouse_shape_truthy v Hshape).
    by apply isArray_prop in Hshape as ->.
Qed.

Lemma probeLever_found slug :
  probeLever JSON_parse http_get slug = Found slug
  ↔ capability_match JSON_parse lever_shape (http_get (lever_url slug)).
Proof.
  unfold probeLever, makeRequest, capability_match. split.
  - destruct (http_get _) as [st body| |] eqn:Hget; simpl; try discriminate.
    destruct (JSON_parse body) as [v|] eqn:Hparse; simpl.
    + case_bool_decide as Hst; simpl; [|discriminate].
      destruct v as [| | | |items|]; try discriminate.
      intros _. exists body, (JArr items). injection Hst as ->.
      repeat split; [done|]. by exists items.
    + rewrite andb_false_r. discriminate.
  - by intros (body & v & -> & -> & [items ->]).
Qed.

(** A probe has two answers only. *)
Lemma probeGreenhouse_cases slug :
  probeGreenhouse JSON_parse http_get slug = Found slug
  ∨ probeGreenhouse JSON_parse http_get slug = NotFound.
Proof. unfold probeGreenhouse. destruct (_ && _); auto. Qed.

Lemma probeLever_cases slug :
  probeLever JSON_parse http_get slug = Found slug
  ∨ probeLever JSON_parse http_get slug = NotFound.
Proof. unfold probeLever. destruct (_ && _); auto. Qed.

End Probes.

(** C1. A probe answers [Found] exactly when the response has status 200
    and a body of the provider's shape (Greenhouse: an object whose member
    [jobs] is an array; Lever: an array), and [NotFound] in every other
    case: another status, a failed request, a timeout, a body that does not
    decode, a body of another shape. [NotFound] carries nothing, so a
    timeout and a 404 give the same answer. The probes are total: no case
    raises an error. *)
Theorem probe_classification (JSON_parse : string -> option json)
    (http_get : string -> outcome) (slug : string) :
  let gh := capability_match JSON_parse greenhouse_shape (http_get (greenhouse_url slug)) in
  let lv := capability_match JSON_parse lever_shape (http_get (lever_url slug)) in
  (probeGreenhouse JSON_parse http_get slug = Found slug ↔ gh)
  ∧ (probeGreenhouse JSON_parse http_get slug = NotFound ↔ ¬ gh)
  ∧ (probeLever JSON_parse http_get slug = Found slug ↔ lv)
  ∧ (probeLever JSON_parse http_get slug = NotFound ↔ ¬ lv).
Proof.
  intros gh lv.
  pose proof (probeGreenhouse_found JSON_parse http_get slug) as Hg.
  pose proof (probeLever_found JSON_parse http_get slug) as Hl.
  fold gh in Hg. fold lv in Hl.
  split; [exact Hg|]. split; [|split; [exact Hl|]].
  - split.
    + intros E Hm. apply Hg in Hm. rewrite E in Hm. discriminate.
    + intros Hn.
      destruct (probeGreenhouse_cases JSON_parse http_get slug) as [E|E];
        [exfalso; apply Hn, Hg, E | exact E].
  - split.
    + intros E Hm. apply Hl in Hm. rewrite E in Hm. discriminate.
    + intros Hn.
      destruct (probeLever_cases JSON_parse http_get slug) as [E|E];
        [exfalso; apply Hn, Hl, E | exact E].
Qed.

(** A timeout and a 404 are the same to the caller of a probe. *)
Corollary probe_timeout_like_404 JSON_parse (timeout http404 : string -> outcome)
    slug body :
  timeout (greenhouse_url slug) = TimedOut →
  http404 (greenhouse_url slug) = Response 404 body →
  probeGreenhouse JSON_parse timeout slug
  = probeGreenhouse JSON_parse http404 slug.
Proof.
  intros Ht H404. unfold probeGreenhouse, makeRequest. rewrite Ht, H404.
  by destruct (JSON_parse body).
Qed.

(** The firm of the example of the specification: a name and nothing else. *)
Definition foo_bar : firm_record :=
  Firm None "Foo & Bar Architects (FBA)" None None None None None None None []
    None None None None.

(** A variant of "foo-and-bar" or of "foobar": one of the two up to
    hyphens ("foo-and-bar", "fooandbar", "foo-bar", "foobar", ...). *)
Definition foo_bar_variant (s : string) : bool :=
  let t := Re.replace_g re_hyphen "" s in
  String.eqb t "fooandbar" || String.eqb t "foobar".

Section Firms.

Variable JSON_parse : string -> option json.
Variable http_get : string -> outcome.
Variable URL_hostname : string -> option string.

(** Without a hit the loop runs to the end and changes nothing. *)
Lemma try_candidates_no_hit candidates firm :
  (∀ c, c ∈ candidates →
     probeGreenhouse JSON_parse http_get c = NotFound
     ∧ probeLever JSON_parse http_get c = NotFound) →
  try_candidates JSON_parse http_get candidates firm false false
  = (firm, false, false).
Proof.
  induction candidates as [|c rest IH]; intros Hno; [reflexivity|].
  destruct (Hno c) as [Hg Hl]; [left|].
  simpl. rewrite Hg, Hl. simpl. apply IH.
  intros c' Hc'. apply Hno. by right.
Qed.

End Firms.

(** C3. For a firm none of whose candidates is found on Greenhouse or on
    Lever, [processFirm] leaves the first candidate of the sorted list in
    the field [greenhouse_slug]. *)
Theorem no_hit_records_first_candidate (JSON_parse : string -> option json)
    (http_get : string -> outcome) (URL_hostname : string -> option string)
    (firm : firm_record) (index : nat) (first : string) :
  head (generateSlugCandidates URL_hostname firm) = Some first →
  (∀ c, c ∈ generateSlugCandidates URL_hostname firm →
     probeGreenhouse JSON_parse http_get c = NotFound
     ∧ probeLever JSON_parse http_get c = NotFound) →
  greenhouse_slug (fst (processFirm JSON_parse http_get URL_hostname firm index))
  = Some first.
Proof.
  intros Hfirst Hno. unfold processFirm.
  rewrite (try_candidates_no_hit _ _ _ _ Hno).
  destruct (generateSlugCandidates URL_hostname firm); [discriminate|].
  injection Hfirst as ->. reflexivity.
Qed.

Lemma no_hit_records_first_candidate_witness :
  let http_get := λ _ : string, TimedOut in
  let URL_hostname := λ _ : string, @None string in
  let JSON_parse := λ _ : string, @None json in
  head (generateSlugCandidates URL_hostname foo_bar) = Some "fba"
  ∧ greenhouse_slug (fst (processFirm JSON_parse http_get URL_hostname foo_bar 0))
    = Some "fba".
Proof.
  intros http_get URL_hostname JSON_parse. split; [reflexivity|].
  apply (no_hit_records_first_candidate JSON_parse http_get URL_hostname foo_bar 0 "fba").
  - reflexivity.
  - intros c _. split; reflexivity.
Defined.

(** With no candidate at all the field keeps the value it had. *)
Lemma no_candidate_keeps_slug JSON_parse http_get URL_hostname firm index :
  generateSlugCandidates URL_hostname firm = [] →
  fst (processFirm JSON_parse http_get URL_hostname firm index) = firm.
Proof. intros H. unfold processFirm. by rewrite H. Qed.

(** C6, as the specification has it, fails: for the firm named
    "Foo & Bar Architects (FBA)" no candidate is a variant of "foo-and-bar"
    or of "foobar". *)
Lemma foo_bar_has_no_short_variant :
  ¬ (let candidates := generateSlugCandidates (λ _, None) foo_bar in
     "fba" ∈ candidates
     ∧ (∃ s, s ∈ candidates ∧ foo_bar_variant s = true)
     ∧ "foo" ∈ candidates).
Proof.
  intros (_ & (s & Hs & Hv) & _).
  change (s ∈ ["fba"; "foo"; "fooandbararchitectsfba"; "foo-and-bar-architects-fba"])
    in Hs.
  repeat (apply elem_of_cons in Hs as [->|Hs]; [discriminate Hv|]).
  by apply elem_of_nil in Hs.
Qed.

(** C6, amended. For the firm named "Foo & Bar Architects (FBA)" the
    candidates are "fba", "foo" and the two forms of the whole name,
    "fooandbararchitectsfba" and "foo-and-bar-architects-fba", in this
    order: the name ends with the acronym, so that no suffix is removed. *)
Theorem foo_bar_candidates (URL_hostname : string -> option string) :
  generateSlugCandidates URL_hostname foo_bar
  = ["fba"; "foo"; "fooandbararchitectsfba"; "foo-and-bar-architects-fba"].
Proof. reflexivity. Qed.

(** What a batch writes back stays within the positions of the batch. *)
Lemma lookup_store_batch i batch data j :
  j < i ∨ i + length batch ≤ j →
  store_batch i batch data !! j = data !! j.
Proof.
  unfold store_batch. intros Hj.
  assert (Hidx : Forall (λ p : nat * firm_record, fst p < length batch) (imap pair batch)).
  { apply Forall_forall. intros [idx f] Hin.
    apply elem_of_lookup_imap in Hin as (k & x & Heq & Hk).
    injection Heq as -> ->. simpl. by apply lookup_lt_Some in Hk. }
  induction Hidx as [|[idx f] l Hlt _ IH]; simpl; [done|].
  simpl in Hlt. rewrite list_lookup_insert_ne by lia. exact IH.
Qed.

Lemma drop_store_batch i n batch data :
  length batch ≤ n →
  drop (i + n) (store_batch i batch data) = drop (i + n) data.
Proof.
  intros Hn. apply list_eq. intros j. rewrite !lookup_drop.
  apply lookup_store_batch. lia.
Qed.

(** The counters after a list of results. *)
Lemma foldl_count_greenhouse rs t :
  n_greenhouse (foldl count t rs)
  = n_greenhouse t + length (filter (λ r, greenhouse r = true) rs).
Proof.
  revert t. induction rs as [|r rs IH]; intros t; simpl; [lia|].
  rewrite IH, filter_cons. unfold count.
  destruct (greenhouse r); [|destruct (lever r)];
    (case_decide; [|try done]); try done; simpl; lia.
Qed.

Lemma foldl_count_lever rs t :
  n_lever (foldl count t rs)
  = n_lever t
    + length (filter (λ r, greenhouse r = false ∧ lever r = true) rs).
Proof.
  revert t. induction rs as [|r rs IH]; intros t; simpl; [lia|].
  rewrite IH, filter_cons. unfold count.
  destruct (greenhouse r); [|destruct (lever r)];
    case_decide; simpl; try lia; try tauto; destruct_and?; done.
Qed.

Lemma foldl_count_noMatch rs t :
  n_noMatch (foldl count t rs)
  = n_noMatch t
    + length (filter (λ r, greenhouse r = false ∧ lever r = false) rs).
Proof.
  revert t. induction rs as [|r rs IH]; intros t; simpl; [lia|].
  rewrite IH, filter_cons. unfold count.
  destruct (greenhouse r); [|destruct (lever r)];
    case_decide; simpl; try lia; try tauto; destruct_and?; done.
Qed.

(** Every result moves one counter by one. *)
Lemma foldl_count_total rs t :
  n_greenhouse (foldl count t rs) + n_lever (foldl count t rs)
  + n_noMatch (foldl count t rs)
  = n_greenhouse t + n_lever t + n_noMatch t + length rs.
Proof.
  revert t. induction rs as [|r rs IH]; intros t; simpl; [lia|].
  rewrite IH. unfold count.
  destruct (greenhouse r); [|destruct (lever r)]; simpl; lia.
Qed.

Section Summary.

Variable JSON_parse : string -> option json.
Variable URL_hostname : string -> option string.
Variable network : nat -> string -> outcome.

(** The results of the firms of [firms], the first of which has the
    index [i]. *)
Definition outcomes (i : nat) (firms : list firm_record) : list matches :=
  imap (λ idx firm,
          snd (processFirm JSON_parse (network (i + idx)) URL_hostname
                 firm (i + idx))) firms.

Lemma outcomes_app i l1 l2 :
  outcomes i (l1 ++ l2) = (outcomes i l1 ++ outcomes (i + length l1) l2)%list.
Proof.
  unfold outcomes. rewrite imap_app. f_equal.
  apply imap_ext. intros idx f _. simpl.
  by rewrite Nat.add_assoc.
Qed.

Lemma length_outcomes i l : length (outcomes i l) = length l.
Proof. unfold outcomes. by rewrite length_imap. Qed.

(** The results of one batch, and of the firms after it. *)
Lemma outcomes_step i firms results :
  let batchResults :=
    imap (λ idx firm,
            processFirm JSON_parse (network (i + idx)) URL_hostname firm (i + idx))
      (slice i (i + CONCURRENCY) firms) in
  foldl count (foldl count results (snd <$> batchResults))
    (outcomes (i + CONCURRENCY)
       (drop (i + CONCURRENCY) (store_batch i (fst <$> batchResults) firms)))
  = foldl count results (outcomes i (drop i firms)).
Proof.
  intros batchResults.
  rewrite drop_store_batch.
  2:{ unfold batchResults, slice.
      rewrite length_fmap, length_imap, length_take. lia. }
  rewrite <- (take_drop CONCURRENCY (drop i firms)) at 1.
  rewrite outcomes_app, foldl_app. f_equal.
  - f_equal. unfold outcomes, batchResults, slice.
    replace (i + CONCURRENCY - i) with CONCURRENCY by lia.
    by rewrite fmap_imap.
  - rewrite drop_drop.
    destruct (decide (i + CONCURRENCY ≤ length firms)) as [Hle|Hgt].
    + rewrite length_take, length_drop.
      by replace (CONCURRENCY `min` (length firms - i)) with CONCURRENCY by lia.
    + rewrite (drop_ge firms (i + CONCURRENCY)) by lia. reflexivity.
Qed.

(** The loop counts the results of the firms from [i] on, each taken on
    the record of the database. *)
Lemma batches_counts i firms results :
  snd (batches JSON_parse URL_hostname network i firms results)
  = foldl count results (outcomes i (drop i firms)).
Proof.
  funelim (batches JSON_parse URL_hostname network i firms results).
  - match goal with
    | IH : snd (batches _ _ _ _ _ _) = _ |- _ => rewrite IH
    end.
    apply outcomes_step.
  - rewrite drop_ge by lia. reflexivity.
Qed.

End Summary.

(** C10. The three counters of the summary partition the firms: with the
    results of [processFirm] for the firms of the database, the Greenhouse
    counter counts the firms found on Greenhouse (on Lever too or not),
    the Lever counter those found on Lever only, the no-match counter
    those found on neither; the three add up to the number of firms. *)
Theorem summary_partitions_firms (JSON_parse : string -> option json)
    (URL_hostname : string -> option string) (network : nat -> string -> outcome)
    (read_firms : string -> option (list firm_record))
    (write_firms : list firm_record -> string)
    (files files' : gmap string string) (results : tally) :
  main JSON_parse URL_hostname network read_firms write_firms files
  = Some (files', results) →
  ∃ data,
    (files !! DATA_FILE) ≫= read_firms = Some data
    ∧ let rs := outcomes JSON_parse URL_hostname network 0 data in
      n_greenhouse results = length (filter (λ r, greenhouse r = true) rs)
      ∧ n_lever results
        = length (filter (λ r, greenhouse r = false ∧ lever r = true) rs)
      ∧ n_noMatch results
        = length (filter (λ r, greenhouse r = false ∧ lever r = false) rs)
      ∧ n_greenhouse results + n_lever results + n_noMatch results
        = length data.
Proof.
  unfold main. intros Hmain.
  destruct (files !! DATA_FILE) as [text|]; [|discriminate]. simpl.
  destruct (read_firms text) as [data|]; [|discriminate].
  exists data. split; [reflexivity|].
  pose proof (batches_counts JSON_parse URL_hostname network 0 data (Tally 0 0 0))
    as Hcount.
  destruct (batches _ _ _ 0 data _) as [data' results'].
  injection Hmain as _ <-. simpl in Hcount. rewrite drop_0 in Hcount.
  subst results'. cbv zeta. split_and!.
  - by rewrite foldl_count_greenhouse.
  - by rewrite foldl_count_lever.
  - by rewrite foldl_count_noMatch.
  - by rewrite foldl_count_total, length_outcomes.
Qed.

(** [main] runs to its end when the data file is there and decodes. *)
Lemma main_runs JSON_parse URL_hostname network read_firms write_firms
    (files : gmap string string) text data :
  files !! DATA_FILE = Some text →
  read_firms text = Some data →
  is_Some (main JSON_parse URL_hostname network read_firms write_firms files).
Proof.
  intros Hfile Hread. unfold main. rewrite Hfile, Hread.
  destruct (batches _ _ _ _ _ _). by eexists.
Qed.

Lemma summary_partitions_firms_witness :
  let JSON_parse := λ _ : string, @None json in
  let URL_hostname := λ _ : string, @None string in
  let network := λ (_ : nat) (_ : string), TimedOut in
  let read_firms := λ _ : string, Some [foo_bar; foo_bar] in
  let write_firms := λ _ : list firm_record, "" in
  let files : gmap string string := {[DATA_FILE := ""]} in
  main JSON_parse URL_hostname network read_firms write_firms files
  = Some (files, Tally 0 0 2)
  ∧ ∃ data,
      (files !! DATA_FILE) ≫= read_firms = Some data
      ∧ 0 + 0 + 2 = length data.
Proof.
  intros JSON_parse URL_hostname network read_firms write_firms files.
  assert (Hmain : main JSON_parse URL_hostname network read_firms write_firms files
                  = Some (files, Tally 0 0 2)) by (vm_compute; reflexivity).
  split; [exact Hmain|].
  destruct (summary_partitions_firms _ _ _ _ _ _ _ _ Hmain)
    as (data & Hdata & _ & _ & _ & Hsum).
  exists data. split; [exact Hdata | exact Hsum].
Defined.

End DiscovererFacts.

(** * Regular expressions under the flag [i] *)

Module ReFacts.

Import Re.









End ReFacts.

(** * Properties of the job fetcher *)

Module FetcherFacts.

Import Fetcher.

(** ** The batches *)

(** The batches of [batchProcess] cover the items from [i] on, in order. *)
Lemma batchProcess_foldl {S A : Type} (items : list A) (fn : A -> S -> S)
    (i : nat) (st : S) :
  batchProcess items fn i st = foldl (λ st x, fn x st) st (drop i items).
Proof.
  funelim (batchProcess items fn i st).
  - match goal with
    | IH : batchProcess _ _ _ _ = foldl _ _ _ |- _ => rewrite IH
    end.
    rewrite <- (take_drop CONCURRENCY (drop i items)) at 1.
    rewrite foldl_app, drop_drop. unfold slice.
    by replace (i + CONCURRENCY - i) with CONCURRENCY by lia.
  - rewrite drop_ge by lia. reflexivity.
Qed.

(** ** References into the array of firms *)

Section Refs.

Context {A : Type} (p : A -> bool).

Lemma elem_of_refs_where (items : list A) i :
  i ∈ refs_where p items ↔ ∃ x, items !! i = Some x ∧ p x = true.
Proof.
  unfold refs_where. rewrite list_elem_of_fmap. split.
  - intros ([j x] & -> & Hin). apply list_elem_of_filter in Hin as [Hp Hin].
    apply elem_of_lookup_imap in Hin as (k & y & Heq & Hk).
    injection Heq as -> ->. eauto.
  - intros (x & Hi & Hp). exists (i, x). split; [done|].
    apply list_elem_of_filter. split; [done|].
    by apply (elem_of_lookup_imap_2 pair).
Qed.

Lemma NoDup_refs_where (items : list A) : NoDup (refs_where p items).
Proof.
  unfold refs_where. apply NoDup_fmap_fst.
  - intros i x y [_ Hx]%list_elem_of_filter [_ Hy]%list_elem_of_filter.
    apply elem_of_lookup_imap in Hx as (k & x' & Heq & Hk).
    apply elem_of_lookup_imap in Hy as (k' & y' & Heq' & Hk').
    injection Heq as -> ->. injection Heq' as -> ->. congruence.
  - apply NoDup_filter. apply (NoDup_fmap_1 fst).
    rewrite fmap_imap.
    rewrite (imap_ext _ (λ j _, j)) by done.
    rewrite (imap_seq_0 items (λ j, j)), list_fmap_id. apply NoDup_seq.
Qed.

(** Altering each referenced object once is mapping over the array. *)
Lemma lookup_foldl_alter (g : A -> A) (refs : list nat) (items : list A) i :
  NoDup refs →
  foldl (λ st x, alter g x st) items refs !! i
  = if decide (i ∈ refs) then g <$> items !! i else items !! i.
Proof.
  revert items. induction refs as [|x refs IH]; intros items Hnd; cbn [foldl].
  - by destruct (decide (i ∈ [])) as [?%elem_of_nil|].
  - apply NoDup_cons in Hnd as [Hx Hnd]. rewrite IH by done.
    destruct (decide (i ∈ refs)) as [Hi|Hi].
    + rewrite decide_True by (by right).
      by rewrite list_lookup_alter_ne by (intros ->; done).
    + destruct (decide (i = x)) as [->|Hne].
      * rewrite decide_True by left. apply list_lookup_alter_eq.
      * rewrite decide_False by (by intros [?|?]%elem_of_cons).
        by rewrite list_lookup_alter_ne.
Qed.

Lemma foldl_alter_refs_where (g : A -> A) (items : list A) :
  foldl (λ st x, alter g x st) items (refs_where p items)
  = (λ x, if p x then g x else x) <$> items.
Proof.
  apply list_eq. intros i.
  rewrite lookup_foldl_alter by apply NoDup_refs_where.
  rewrite list_lookup_fmap.
  destruct (decide (i ∈ refs_where p items)) as [Hi|Hi].
  - apply elem_of_refs_where in Hi as (x & -> & Hp). simpl. by rewrite Hp.
  - destruct (items !! i) as [x|] eqn:Hx; [|done]. simpl.
    destruct (p x) eqn:Hp; [|done].
    exfalso. apply Hi, elem_of_refs_where. eauto.
Qed.

End Refs.

Lemma list_alter_Some {A : Type} (g : A -> A) i (l : list A) x :
  l !! i = Some x → alter g i l = <[i := g x]> l.
Proof.
  intros Hx. apply list_eq. intros j. destruct (decide (i = j)) as [<-|Hne].
  - rewrite list_lookup_alter_eq, Hx, list_lookup_insert_eq; [done|].
    by apply lookup_lt_Some in Hx.
  - by rewrite list_lookup_alter_ne, list_lookup_insert_ne.
Qed.

Lemma list_alter_None {A : Type} (g : A -> A) i (l : list A) :
  l !! i = None → alter g i l = l.
Proof.
  intros Hx. apply list_eq. intros j. destruct (decide (i = j)) as [<-|Hne].
  - by rewrite list_lookup_alter_eq, Hx.
  - by rewrite list_lookup_alter_ne.
Qed.

Lemma foldl_ext {A B : Type} (f g : A -> B -> A) (l : list B) (a : A) :
  (∀ a x, f a x = g a x) → foldl f a l = foldl g a l.
Proof.
  intros Hfg. revert a. induction l as [|x l IH]; intros a; simpl; [done|].
  by rewrite Hfg, IH.
Qed.

(** ** The job list of a firm *)

Lemma set_jobs_jobs f : set_jobs (jobs f) f = f.
Proof. by destruct f. Qed.

Lemma push_jobs_nil f : push_jobs [] f = f.
Proof. unfold push_jobs. rewrite app_nil_r. apply set_jobs_jobs. Qed.

Lemma push_jobs_push_jobs more more' f :
  push_jobs more' (push_jobs more f) = push_jobs (more ++ more') f.
Proof. unfold push_jobs. destruct f; simpl. by rewrite app_assoc. Qed.

Lemma push_jobs_set_jobs more js f :
  push_jobs more (set_jobs js f) = set_jobs (js ++ more) f.
Proof. by destruct f. Qed.

Lemma push_jobs_if more f :
  (if 0 <? length more then push_jobs more f else f) = push_jobs more f.
Proof. destruct more; [by rewrite push_jobs_nil | done]. Qed.

(** ** The provider passes, firm by firm *)

Section Passes.

Variable P : platform.
Variable w : world.

Lemma fetchGreenhouseJobs_no_slug slug :
  Js.truthy slug = false → fetchGreenhouseJobs P w slug = [].
Proof. intros H. unfold fetchGreenhouseJobs. by rewrite H. Qed.

Lemma fetchLeverJobs_no_slug slug :
  Js.truthy slug = false → fetchLeverJobs P w slug = [].
Proof. intros H. unfold fetchLeverJobs. by rewrite H. Qed.

Lemma greenhouse_handler_alter firm firms :
  greenhouse_handler P w firm firms
  = alter (λ f, push_jobs (fetchGreenhouseJobs P w (greenhouse_slug f)) f)
      firm firms.
Proof.
  unfold greenhouse_handler. destruct (firms !! firm) as [f|] eqn:Hf.
  - rewrite (list_alter_Some _ _ _ _ Hf).
    destruct (fetchGreenhouseJobs P w (greenhouse_slug f)); [|done].
    simpl. by rewrite push_jobs_nil, list_insert_id.
  - by rewrite list_alter_None.
Qed.

Lemma lever_handler_alter firm firms :
  lever_handler P w firm firms
  = alter (λ f, push_jobs (fetchLeverJobs P w (lever_slug f)) f) firm firms.
Proof.
  unfold lever_handler. destruct (firms !! firm) as [f|] eqn:Hf.
  - rewrite (list_alter_Some _ _ _ _ Hf).
    destruct (fetchLeverJobs P w (lever_slug f)); [|done].
    simpl. by rewrite push_jobs_nil, list_insert_id.
  - by rewrite list_alter_None.
Qed.

(** The Greenhouse pass pushes, onto the list of every firm, the jobs
    fetched for its slug: none for a firm without slug. *)
Lemma greenhouse_pass_fmap firms :
  greenhouse_pass P w firms
  = (λ f, push_jobs (fetchGreenhouseJobs P w (greenhouse_slug f)) f) <$> firms.
Proof.
  unfold greenhouse_pass. rewrite batchProcess_foldl, drop_0.
  rewrite (foldl_ext _ _ _ _ (λ st x, greenhouse_handler_alter x st)).
  rewrite (foldl_alter_refs_where (λ f, Js.truthy (greenhouse_slug f))).
  apply list_fmap_ext. intros i f _. simpl.
  destruct (Js.truthy (greenhouse_slug f)) eqn:Hslug; [done|].
  by rewrite fetchGreenhouseJobs_no_slug, push_jobs_nil.
Qed.

Lemma lever_pass_fmap firms :
  lever_pass P w firms
  = (λ f, push_jobs (fetchLeverJobs P w (lever_slug f)) f) <$> firms.
Proof.
  unfold lever_pass. rewrite batchProcess_foldl, drop_0.
  rewrite (foldl_ext _ _ _ _ (λ st x, lever_handler_alter x st)).
  rewrite (foldl_alter_refs_where (λ f, Js.truthy (lever_slug f))).
  apply list_fmap_ext. intros i f _. simpl.
  destruct (Js.truthy (lever_slug f)) eqn:Hslug; [done|].
  by rewrite fetchLeverJobs_no_slug, push_jobs_nil.
Qed.

(** The handlers of a pass may run in any order: each changes the record
    of its own firm only. *)
Lemma greenhouse_handlers_commute (refs refs' : list nat) firms :
  NoDup refs → refs ≡ₚ refs' →
  foldl (λ st x, greenhouse_handler P w x st) firms refs
  = foldl (λ st x, greenhouse_handler P w x st) firms refs'.
Proof.
  intros Hnd Hperm.
  rewrite !(foldl_ext _ _ _ _ (λ st x, greenhouse_handler_alter x st)).
  apply list_eq. intros i.
  rewrite !lookup_foldl_alter by (done || by rewrite <- Hperm).
  destruct (decide (i ∈ refs)) as [Hi|Hi].
  - by rewrite decide_True by (by rewrite <- Hperm).
  - by rewrite decide_False by (by rewrite <- Hperm).
Qed.

Lemma lever_handlers_commute (refs refs' : list nat) firms :
  NoDup refs → refs ≡ₚ refs' →
  foldl (λ st x, lever_handler P w x st) firms refs
  = foldl (λ st x, lever_handler P w x st) firms refs'.
Proof.
  intros Hnd Hperm.
  rewrite !(foldl_ext _ _ _ _ (λ st x, lever_handler_alter x st)).
  apply list_eq. intros i.
  rewrite !lookup_foldl_alter by (done || by rewrite <- Hperm).
  destruct (decide (i ∈ refs)) as [Hi|Hi].
  - by rewrite decide_True by (by rewrite <- Hperm).
  - by rewrite decide_False by (by rewrite <- Hperm).
Qed.

(** The firms after the two provider passes of a run. *)
Definition provider_passes (firms : list firm_record) : list firm_record :=
  lever_pass P w (greenhouse_pass P w (set_jobs [] <$> firms)).

Lemma provider_passes_fmap firms :
  provider_passes firms
  = (λ f, set_jobs (fetchGreenhouseJobs P w (greenhouse_slug f)
                    ++ fetchLeverJobs P w (lever_slug f)) f) <$> firms.
Proof.
  unfold provider_passes.
  rewrite lever_pass_fmap, greenhouse_pass_fmap, <- !list_fmap_compose.
  apply list_fmap_ext. intros i f _. simpl.
  by rewrite !push_jobs_set_jobs.
Qed.

End Passes.

(** C9. The Greenhouse pass and the Lever pass keep the number of firms,
    change no field of a firm other than [jobs], and leave a firm without
    the slug of the pass as it is. *)
Theorem provider_pass_frame (P : platform) (w : world)
    (firms : list firm_record) (i : nat) (f : firm_record) :
  firms !! i = Some f →
  (length (greenhouse_pass P w firms) = length firms
   ∧ ∃ js, greenhouse_pass P w firms !! i = Some (set_jobs js f)
           ∧ (Js.truthy (greenhouse_slug f) = false → set_jobs js f = f))
  ∧ (length (lever_pass P w firms) = length firms
     ∧ ∃ js, lever_pass P w firms !! i = Some (set_jobs js f)
             ∧ (Js.truthy (lever_slug f) = false → set_jobs js f = f)).
Proof.
  intros Hf. rewrite greenhouse_pass_fmap, lever_pass_fmap.
  rewrite !length_fmap, !list_lookup_fmap, Hf. simpl.
  split; (split; [done|]); eexists; (split; [reflexivity|]); intros Hslug.
  - rewrite fetchGreenhouseJobs_no_slug by done.
    by rewrite app_nil_r, set_jobs_jobs.
  - rewrite fetchLeverJobs_no_slug by done.
    by rewrite app_nil_r, set_jobs_jobs.
Qed.

(** ** The employment type *)













(** The rules at work: a field without value does not count, and the
    metadata go before the title. *)
Example extractType_examples :
  extractType (Gh.Posting (Some "Summer Intern")
                 (Some [Gh.Meta (Some "Employment Type") JNull]) None None None)
  = JStr "Internship"
  ∧ extractType (Gh.Posting (Some "Summer Intern")
                   (Some [Gh.Meta (Some "Employment Type") (JStr "Temporary")])
                   None None None)
    = JStr "Temporary"
  ∧ extractType (Gh.Posting (Some "Architect") None
                   (Some [Gh.Department (Some "Design");
                          Gh.Department (Some "Internships")]) None None)
    = JStr "Full-time".
Proof. by vm_compute. Qed.

(** ** A small world for examples *)

(** One firm, with a Greenhouse board. *)
Definition acme : firm_record :=
  Firm (Some (JNum 1)) "Acme Architects" None None None None None None None []
    (Some "https://acme.example") None (Some "acme") (Some "acme-lever").

(** A platform whose dates all parse to the time 0, and whose
    [JSON.stringify] tells the empty array from the other values. *)
Definition demo_platform : platform :=
  Platform (λ _, Some 0%Z) (λ _, Some "1970-01-01T00:00:00.000Z")
    (λ v _, match v with JArr [] => "[]" | _ => "[...]" end)
    (λ _, Some [acme]).

(** The board of Acme has one posting; Lever does not answer; the
    aggregator answers every query with one result, of Acme. *)
Definition demo_world (now : Z) (key : option string) : world :=
  World
    (λ url,
       if String.eqb url "https://boards-api.greenhouse.io/v1/boards/acme/jobs"
       then Reply 200 (Some (Some [Gh.Posting (Some "Architect") None None
                                     (Some "1970-01-01") None]))
       else Reply 404 None)
    (λ _, NoReply)
    (λ _ _, Reply 200 (Some (Some [JSearch.Result (Some "ACME Architects")
                                    (Some "Designer") None None None None None
                                    None None None])))
    (λ _ _, now)
    key.

Definition demo_files : gmap string string :=
  {[FIRMS_BASE := "firms"; DISCOVERIES := "stale"]}.

Lemma provider_pass_frame_witness :
  [acme] !! 0 = Some acme
  ∧ ∃ js, greenhouse_pass demo_platform (demo_world 0 None) [acme] !! 0
          = Some (set_jobs js acme).
Proof.
  split; [reflexivity|].
  destruct (provider_pass_frame demo_platform (demo_world 0 None) [acme] 0 acme)
    as [[_ (js & Hjs & _)] _]; [reflexivity|].
  by exists js.
Defined.

(** ** The output file *)

(** The names of the members of an object. *)
Definition keys (v : json) : list string :=
  match v with
  | JObj members => fst <$> members
  | _ => []
  end.

Definition public_fields : list string :=
  ["id"; "name"; "city"; "state"; "lat"; "lng"; "size"; "discipline";
   "specialties"; "jobs"; "website"; "about"].

(** The record has neither of the two internal fields. *)
Definition no_slug_keys (r : json) : Prop :=
  ("greenhouse_slug" ∉ keys r) ∧ ("lever_slug" ∉ keys r).

Lemma keys_object members : keys (object members) ⊆ fst <$> members.
Proof.
  unfold object. simpl. induction members as [|[k [v|]] ms IH]; simpl.
  - done.
  - by apply list_subseteq_skip.
  - by apply list_subseteq_cons.
Qed.

Lemma keys_output_record f : keys (output_record f) ⊆ public_fields.
Proof. apply keys_object. Qed.

(** [main] fails only on the firm database. *)
Lemma main_Some P w (files : gmap string string) :
  is_Some (main P w files) ↔ is_Some ((files !! FIRMS_BASE) ≫= read_firms P).
Proof.
  unfold main. destruct (files !! FIRMS_BASE) as [text|]; simpl; [|done].
  destruct (read_firms P text) as [firms|]; simpl; [|done].
  destruct (passes P w firms). split; intros _; by eexists.
Qed.

(** What [main] writes. *)
Lemma main_files P w (files files' : gmap string string) :
  main P w files = Some files' →
  ∃ firms,
    (files !! FIRMS_BASE) ≫= read_firms P = Some firms
    ∧ files' !! OUTPUT
      = Some (JSON_stringify P (JArr (output_record <$> fst (passes P w firms))) 0)
    ∧ files' !! DISCOVERIES
      = match snd (passes P w firms) with
        | Some unmatched =>
            Some (JSON_stringify P (JArr (json_of_discovery <$> unmatched)) 2)
        | None => files !! DISCOVERIES
        end.
Proof.
  unfold main. intros Hmain.
  destruct (files !! FIRMS_BASE) as [text|]; [|discriminate]. simpl in *.
  destruct (read_firms P text) as [firms|]; [|discriminate]. simpl in *.
  exists firms. split; [done|].
  destruct (passes P w firms) as [firms' [unmatched|]];
    injection Hmain as <-; simpl.
  - split; [apply lookup_insert_eq|].
    rewrite lookup_insert_ne by done. apply lookup_insert_eq.
  - split; [apply lookup_insert_eq|].
    by rewrite lookup_insert_ne.
Qed.

(** C4. The output file is the compact serialization of one record for each
    firm, and no record has a member [greenhouse_slug] or [lever_slug],
    whatever the fields of the firm. *)
Theorem output_has_no_slug_keys (P : platform) (w : world)
    (files files' : gmap string string) :
  main P w files = Some files' →
  ∃ firms records,
    (files !! FIRMS_BASE) ≫= read_firms P = Some firms
    ∧ files' !! OUTPUT = Some (JSON_stringify P (JArr records) 0)
    ∧ length records = length firms
    ∧ Forall no_slug_keys records.
Proof.
  intros (firms & Hread & Hout & _)%main_files.
  exists firms, (output_record <$> fst (passes P w firms)).
  split_and!; [done..| |].
  - rewrite length_fmap. unfold passes, jsearch_pass.
    assert (Hadd : ∀ matched l, length (add_matched matched l) = length l).
    { intros matched. unfold add_matched.
      induction matched as [|[i j] ms IH]; intros l; simpl; [done|].
      rewrite IH. destruct (l !! i); [|done].
      destruct (existsb _ _); [done|]. by rewrite length_insert. }
    destruct (0 <? length _); [destruct (matchJSearchToFirms _ _ _ _)|]; simpl;
      rewrite ?Hadd, lever_pass_fmap, greenhouse_pass_fmap, !length_fmap; done.
  - apply Forall_fmap, Forall_forall. intros f _. simpl.
    pose proof (keys_output_record f) as Hkeys.
    split; intros Hin; apply Hkeys in Hin; unfold public_fields in Hin;
      repeat (apply elem_of_cons in Hin as [?|Hin]; [discriminate|]);
      by apply elem_of_nil in Hin.
Qed.

Lemma output_has_no_slug_keys_witness :
  is_Some (main demo_platform (demo_world 0 None) demo_files)
  ∧ ∃ files' records,
      main demo_platform (demo_world 0 None) demo_files = Some files'
      ∧ files' !! OUTPUT = Some (JSON_stringify demo_platform (JArr records) 0)
      ∧ Forall no_slug_keys records.
Proof.
  assert (Hsome : is_Some (main demo_platform (demo_world 0 None) demo_files)).
  { apply main_Some. by eexists. }
  split; [exact Hsome|]. destruct Hsome as [files' Hmain].
  destruct (output_has_no_slug_keys _ _ _ _ Hmain)
    as (firms & records & _ & Hout & _ & Hkeys).
  by exists files', records.
Defined.

(** ** The discoveries file *)

(** The unmatched aggregator results of a run. *)
Definition unmatched_results (P : platform) (w : world)
    (firms : list firm_record) : list discovery :=
  snd (matchJSearchToFirms P w
         (fetchJSearchJobs w (Js.or_else (JSEARCH_API_KEY w) ""))
         (provider_passes P w firms)).

(** The aggregator pass is enabled: the credential is set. *)
Definition aggregator_enabled (w : world) : Prop :=
  Js.truthy (JSEARCH_API_KEY w) = true.

Lemma matchJSearchToFirms_nil P w firms :
  matchJSearchToFirms P w [] firms = ([], []).
Proof. reflexivity. Qed.

(** The pass saves the unmatched results when there are some. *)
Lemma snd_passes P w firms :
  snd (passes P w firms)
  = match unmatched_results P w firms with
    | [] => None
    | unmatched => Some unmatched
    end.
Proof.
  unfold passes, jsearch_pass, unmatched_results, provider_passes.
  destruct (fetchJSearchJobs w _) as [|j raw] eqn:Hraw; [done|].
  cbn [length Nat.ltb Nat.leb].
  destruct (matchJSearchToFirms _ _ _ _) as [matched [|d unmatched]]; done.
Qed.

(** C8, as the specification has it, fails: in a run with the credential
    set in which every result of the aggregator matches a firm, the
    discoveries file keeps the text of an earlier run. *)
Lemma discoveries_file_can_be_stale :
  ¬ (∀ P w (files files' : gmap string string) firms,
       aggregator_enabled w →
       (files !! FIRMS_BASE) ≫= read_firms P = Some firms →
       main P w files = Some files' →
       files' !! DISCOVERIES
       = Some (JSON_stringify P
                 (JArr (json_of_discovery <$> unmatched_results P w firms)) 2)).
Proof.
  intros H.
  destruct (proj2 (main_Some demo_platform (demo_world 0 (Some "key")) demo_files))
    as [files' Hmain]; [by eexists|].
  specialize (H demo_platform (demo_world 0 (Some "key")) demo_files files' [acme]
                eq_refl eq_refl Hmain).
  apply main_files in Hmain as (firms & Hread & _ & Hdisc).
  assert (firms = [acme]) as ->
    by (vm_compute in Hread; injection Hread as <-; reflexivity).
  rewrite Hdisc in H. vm_compute in H. discriminate H.
Qed.

(** C8, amended. A run whose aggregator pass leaves at least one unmatched
    result overwrites the discoveries file with exactly these results, in
    the indented serialization; a run without unmatched result (the pass
    disabled, no result, or every result matched) leaves the file as it
    was. *)
Theorem discoveries_file_written (P : platform) (w : world)
    (files files' : gmap string string) :
  main P w files = Some files' →
  ∃ firms,
    (files !! FIRMS_BASE) ≫= read_firms P = Some firms
    ∧ files' !! DISCOVERIES
      = match unmatched_results P w firms with
        | [] => files !! DISCOVERIES
        | unmatched =>
            Some (JSON_stringify P (JArr (json_of_discovery <$> unmatched)) 2)
        end.
Proof.
  intros (firms & Hread & _ & Hdisc)%main_files.
  exists firms. split; [done|].
  rewrite Hdisc, snd_passes. by destruct (unmatched_results P w firms).
Qed.

(** A world in which the aggregator has a result of an unknown employer. *)
Definition demo_world_unmatched : world :=
  World (λ _, NoReply) (λ _, NoReply)
    (λ _ _, Reply 200 (Some (Some [JSearch.Result (Some "Unknown Studio")
                                    (Some "Designer") None None None None None
                                    None None None])))
    (λ _ _, 0%Z) (Some "key").

Lemma discoveries_file_written_witness :
  is_Some (main demo_platform demo_world_unmatched demo_files)
  ∧ ∃ files',
      main demo_platform demo_world_unmatched demo_files = Some files'
      ∧ files' !! DISCOVERIES = Some "[...]".
Proof.
  assert (Hsome : is_Some (main demo_platform demo_world_unmatched demo_files)).
  { apply main_Some. by eexists. }
  split; [exact Hsome|]. destruct Hsome as [files' Hmain].
  exists files'. split; [exact Hmain|].
  destruct (discoveries_file_written _ _ _ _ Hmain) as (firms & Hread & Hdisc).
  assert (firms = [acme]) as ->
    by (vm_compute in Hread; injection Hread as <-; reflexivity).
  rewrite Hdisc. reflexivity.
Defined.

(** ** The credential of the aggregator *)

(** A firm with some more jobs at the end of its list. *)
Definition with_more_jobs (f g : firm_record) : Prop :=
  ∃ more, g = push_jobs more f.

Lemma with_more_jobs_refl f : with_more_jobs f f.
Proof. exists []. by rewrite push_jobs_nil. Qed.

Lemma with_more_jobs_trans f g h :
  with_more_jobs f g → with_more_jobs g h → with_more_jobs f h.
Proof.
  intros [more ->] [more' ->]. exists (more ++ more')%list.
  apply push_jobs_push_jobs.
Qed.

Lemma Forall2_with_more_jobs_insert firms i f more :
  firms !! i = Some f →
  Forall2 with_more_jobs firms (<[i := push_jobs more f]> firms).
Proof.
  intros Hf. apply Forall2_same_length_lookup_2; [by rewrite length_insert|].
  intros k x y Hx Hy. destruct (decide (i = k)) as [<-|Hne].
  - rewrite list_lookup_insert_eq in Hy by (by apply lookup_lt_Some in Hf).
    injection Hy as <-. rewrite Hf in Hx. injection Hx as <-. by exists more.
  - rewrite list_lookup_insert_ne in Hy by done.
    rewrite Hx in Hy. injection Hy as <-. apply with_more_jobs_refl.
Qed.

(** The matched results add jobs at the end of the lists, and nothing
    else. *)
Lemma add_matched_pushes matched firms :
  Forall2 with_more_jobs firms (add_matched matched firms).
Proof.
  unfold add_matched. revert firms.
  induction matched as [|[i job] matched IH]; intros firms; simpl.
  - apply Forall_Forall2_diag, Forall_forall. intros f _.
    apply with_more_jobs_refl.
  - eapply Forall2_trans; [exact with_more_jobs_trans| |apply IH].
    destruct (firms !! i) as [f|] eqn:Hf.
    + destruct (existsb _ _).
      * apply Forall_Forall2_diag, Forall_forall. intros g _.
        apply with_more_jobs_refl.
      * by apply Forall2_with_more_jobs_insert.
    + apply Forall_Forall2_diag, Forall_forall. intros g _.
      apply with_more_jobs_refl.
Qed.




(** ** Two runs on the same answers *)

Lemma Forall2_imap {A B : Type} (Q : B -> B -> Prop) (f g : nat -> A -> B)
    (l : list A) :
  (∀ k x, Q (f k x) (g k x)) → Forall2 Q (imap f l) (imap g l).
Proof.
  revert f g. induction l as [|x l IH]; intros f g Hfg; simpl.
  - constructor.
  - constructor; [apply Hfg|]. apply IH. intros k y. apply Hfg.
Qed.

Lemma mapM_option_Forall2 {A B : Type} (Q : B -> B -> Prop)
    (f g : A -> option B) (l : list A) :
  (∀ x, option_Forall2 Q (f x) (g x)) →
  option_Forall2 (Forall2 Q) (mapM f l) (mapM g l).
Proof.
  intros Hfg. induction l as [|x l IH]; simpl.
  - by repeat constructor.
  - destruct (Hfg x) as [y y' Hy|]; simpl; [|constructor].
    destruct IH as [k k' Hk|]; simpl; by repeat constructor.
Qed.

Lemma set_jobs_set_jobs js js' f : set_jobs js (set_jobs js' f) = set_jobs js f.
Proof. by destruct f. Qed.

Section TwoRuns.

Variable P : platform.
Variable gh : string -> reply (option (list Gh.posting)).
Variable lv : string -> reply (option (list Lv.posting)).
Variable js : string -> string -> reply (option (list JSearch.result)).
Variable key : option string.

(** The clocks of the two runs. *)
Variables clk1 clk2 : site -> nat -> Z.

(** A relation [R] that the texts of [timeAgo] in the two runs satisfy. *)
Variable R : string -> string -> Prop.
Hypothesis R_refl : ∀ s, R s s.
Hypothesis R_timeAgo :
  ∀ s k d, R (timeAgo P (clk1 s k) d) (timeAgo P (clk2 s k) d).

(** Jobs, firms and discoveries that agree, with posted texts in [R]. *)
Definition job_rel (j1 j2 : job_record) : Prop :=
  title j1 = title j2 ∧ type j1 = type j2 ∧ salary j1 = salary j2
  ∧ R (posted j1) (posted j2) ∧ url j1 = url j2.

Definition firm_rel (f g : firm_record) : Prop :=
  set_jobs [] f = set_jobs [] g ∧ Forall2 job_rel (jobs f) (jobs g).

Definition discovery_rel (d e : discovery) : Prop :=
  employer d = employer e ∧ d_city d = d_city e ∧ d_state d = d_state e
  ∧ d_country d = d_country e ∧ job_rel (d_job d) (d_job e).

Definition matched_rel (m n : nat * job_record) : Prop :=
  fst m = fst n ∧ job_rel (snd m) (snd n).

Lemma fetchGreenhouseJobs_rel slug :
  Forall2 job_rel
    (fetchGreenhouseJobs P (World gh lv js clk1 key) slug)
    (fetchGreenhouseJobs P (World gh lv js clk2 key) slug).
Proof.
  unfold fetchGreenhouseJobs. destruct (Js.truthy slug); simpl; [|constructor].
  destruct (gh _) as [|status [[jobs|]|]]; try constructor;
    destruct (ok status); simpl; try constructor.
  apply Forall2_imap. intros k j. repeat split; simpl.
  destruct (Js.truthy (Gh.updated_at j)); [apply R_timeAgo | apply R_refl].
Qed.

Lemma lever_job_rel now1 now2 j :
  (∀ d, R (timeAgo P now1 d) (timeAgo P now2 d)) →
  option_Forall2 job_rel (lever_job P now1 j) (lever_job P now2 j).
Proof.
  intros Hnow. unfold lever_job. destruct (nonzero (Lv.createdAt j)); simpl.
  - destruct (Date_toISOString P _); simpl; constructor.
    repeat split; simpl. apply Hnow.
  - constructor. repeat split; simpl. apply R_refl.
Qed.

Lemma fetchLeverJobs_rel slug :
  Forall2 job_rel
    (fetchLeverJobs P (World gh lv js clk1 key) slug)
    (fetchLeverJobs P (World gh lv js clk2 key) slug).
Proof.
  unfold fetchLeverJobs. destruct (Js.truthy slug); simpl; [|constructor].
  destruct (lv _) as [|status [[postings|]|]]; try constructor;
    destruct (ok status); simpl; try constructor.
  destruct (mapM_option_Forall2 job_rel
              (λ kj, lever_job P (clk1 (AtLever (default "" slug)) (fst kj)) (snd kj))
              (λ kj, lever_job P (clk2 (AtLever (default "" slug)) (fst kj)) (snd kj))
              (imap pair postings)) as [k k' Hk|]; simpl; [|done|constructor].
  intros [i j]. apply lever_job_rel. intros d. apply R_timeAgo.
Qed.

Lemma provider_passes_rel firms :
  Forall2 firm_rel
    (provider_passes P (World gh lv js clk1 key) firms)
    (provider_passes P (World gh lv js clk2 key) firms).
Proof.
  rewrite !provider_passes_fmap. apply Forall2_fmap, Forall_Forall2_diag.
  apply Forall_forall. intros f _. split.
  - by rewrite !set_jobs_set_jobs.
  - destruct f; simpl.
    apply Forall2_app; [apply fetchGreenhouseJobs_rel | apply fetchLeverJobs_rel].
Qed.

Lemma firm_rel_name f g : firm_rel f g → name f = name g.
Proof. intros [H _]. by apply (f_equal name) in H. Qed.

(** The index of the firms depends on their names only. *)
Lemma firmIndex_rel_from (o : nat -> nat) (index : gmap string nat) firms1 firms2 :
  Forall2 firm_rel firms1 firms2 →
  foldl (λ index '(i, f), <[normalize (Some (name f)) := i]> index) index
    (imap (λ i f, (o i, f)) firms1)
  = foldl (λ index '(i, f), <[normalize (Some (name f)) := i]> index) index
      (imap (λ i f, (o i, f)) firms2).
Proof.
  intros Hfirms. revert o index.
  induction Hfirms as [|f g firms1 firms2 Hfg _ IH]; intros o index; simpl.
  - done.
  - rewrite (firm_rel_name f g Hfg). apply (IH (o ∘ S)).
Qed.

Lemma firmIndex_rel firms1 firms2 :
  Forall2 firm_rel firms1 firms2 → firmIndex firms1 = firmIndex firms2.
Proof. apply (firmIndex_rel_from (λ i, i)). Qed.

Lemma jsearch_job_rel k j :
  job_rel (jsearch_job P (clk1 AtJSearch k) j) (jsearch_job P (clk2 AtJSearch k) j).
Proof.
  unfold jsearch_job. repeat split; simpl.
  destruct (Js.truthy _); [apply R_timeAgo | apply R_refl].
Qed.

Lemma match_result_rel index items acc1 acc2 :
  Forall2 matched_rel (fst acc1) (fst acc2) →
  Forall2 discovery_rel (snd acc1) (snd acc2) →
  Forall2 matched_rel
    (fst (foldl (match_result P (World gh lv js clk1 key) index) acc1 items))
    (fst (foldl (match_result P (World gh lv js clk2 key) index) acc2 items))
  ∧ Forall2 discovery_rel
      (snd (foldl (match_result P (World gh lv js clk1 key) index) acc1 items))
      (snd (foldl (match_result P (World gh lv js clk2 key) index) acc2 items)).
Proof.
  revert acc1 acc2.
  induction items as [|[k j] items IH];
    intros [matched1 unmatched1] [matched2 unmatched2] Hm Hu; simpl in *.
  - done.
  - destruct (index !! _) as [firm|]; apply IH; simpl; try done.
    + apply Forall2_app; [done|]. repeat constructor. apply jsearch_job_rel.
    + apply Forall2_app; [done|]. repeat constructor. apply jsearch_job_rel.
Qed.

Lemma matchJSearchToFirms_rel jsearchJobs firms1 firms2 :
  Forall2 firm_rel firms1 firms2 →
  Forall2 matched_rel
    (fst (matchJSearchToFirms P (World gh lv js clk1 key) jsearchJobs firms1))
    (fst (matchJSearchToFirms P (World gh lv js clk2 key) jsearchJobs firms2))
  ∧ Forall2 discovery_rel
      (snd (matchJSearchToFirms P (World gh lv js clk1 key) jsearchJobs firms1))
      (snd (matchJSearchToFirms P (World gh lv js clk2 key) jsearchJobs firms2)).
Proof.
  intros Hfirms. unfold matchJSearchToFirms.
  rewrite (firmIndex_rel firms1 firms2 Hfirms).
  apply match_result_rel; constructor.
Qed.

Lemma existsb_title_rel jobs1 jobs2 t :
  Forall2 job_rel jobs1 jobs2 →
  existsb (λ j, String.eqb (title j) t) jobs1
  = existsb (λ j, String.eqb (title j) t) jobs2.
Proof.
  induction 1 as [|j1 j2 jobs1 jobs2 (Ht & _) _ IH]; simpl; [done|].
  by rewrite Ht, IH.
Qed.

Lemma firm_rel_push_jobs f g more1 more2 :
  firm_rel f g → Forall2 job_rel more1 more2 →
  firm_rel (push_jobs more1 f) (push_jobs more2 g).
Proof.
  intros [Hfg Hjobs] Hmore. split.
  - unfold push_jobs. by rewrite !set_jobs_set_jobs.
  - destruct f, g; simpl in *. by apply Forall2_app.
Qed.

Lemma add_matched_rel matched1 matched2 firms1 firms2 :
  Forall2 matched_rel matched1 matched2 →
  Forall2 firm_rel firms1 firms2 →
  Forall2 firm_rel (add_matched matched1 firms1) (add_matched matched2 firms2).
Proof.
  unfold add_matched. intros Hmatched. revert firms1 firms2.
  induction Hmatched as [|[i job1] [i' job2] matched1 matched2 [Hi Hjob] _ IH];
    intros firms1 firms2 Hfirms; simpl; [done|].
  simpl in Hi, Hjob. subst i'. apply IH.
  pose proof (proj1 (Forall2_lookup _ _ _) Hfirms i) as Hlookup.
  destruct Hlookup as [f g Hfg|]; [|done].
  rewrite (proj1 Hjob).
  rewrite (existsb_title_rel (jobs f) (jobs g) (title job2) (proj2 Hfg)).
  destruct (existsb _ _); [done|].
  apply Forall2_insert; [done|].
  apply firm_rel_push_jobs; [done|]. constructor; [done | constructor].
Qed.

(** The two runs end with related firms, and save related discoveries or
    none. *)
Lemma passes_rel firms :
  Forall2 firm_rel
    (fst (passes P (World gh lv js clk1 key) firms))
    (fst (passes P (World gh lv js clk2 key) firms))
  ∧ option_Forall2 (Forall2 discovery_rel)
      (snd (passes P (World gh lv js clk1 key) firms))
      (snd (passes P (World gh lv js clk2 key) firms)).
Proof.
  unfold passes, jsearch_pass.
  fold (provider_passes P (World gh lv js clk1 key) firms).
  fold (provider_passes P (World gh lv js clk2 key) firms).
  pose proof (provider_passes_rel firms) as Hfirms.
  change (fetchJSearchJobs (World gh lv js clk2 key))
    with (fetchJSearchJobs (World gh lv js clk1 key)).
  cbn [JSEARCH_API_KEY].
  destruct (0 <? length _); [|split; [done | constructor]].
  pose proof (matchJSearchToFirms_rel
                (fetchJSearchJobs (World gh lv js clk1 key) (Js.or_else key ""))
                _ _ Hfirms) as [Hm Hu].
  destruct (matchJSearchToFirms P (World gh lv js clk1 key) _ _)
    as [matched1 unmatched1].
  destruct (matchJSearchToFirms P (World gh lv js clk2 key) _ _)
    as [matched2 unmatched2].
  simpl in *. split; [by apply add_matched_rel|].
  rewrite (Forall2_length _ _ _ Hu).
  destruct (0 <? length unmatched2); by constructor.
Qed.

End TwoRuns.

(** With equality for [R], related things are the same. *)
Lemma job_rel_eq j1 j2 : job_rel eq j1 j2 → j1 = j2.
Proof.
  destruct j1, j2. unfold job_rel. simpl. intros (-> & -> & -> & -> & ->).
  reflexivity.
Qed.

Lemma Forall2_rel_eq {A : Type} (Q : A -> A -> Prop) (l k : list A) :
  (∀ x y, Q x y → x = y) → Forall2 Q l k → l = k.
Proof.
  intros HQ H. apply list_eq_Forall2. eapply Forall2_impl; [exact H | exact HQ].
Qed.

Lemma firm_rel_eq f g : firm_rel eq f g → f = g.
Proof.
  intros [Hframe Hjobs]. apply (Forall2_rel_eq _ _ _ job_rel_eq) in Hjobs.
  rewrite <- (set_jobs_jobs f), <- (set_jobs_jobs g).
  rewrite <- (set_jobs_set_jobs (jobs f) [] f), <- (set_jobs_set_jobs (jobs g) [] g).
  by rewrite Hframe, Hjobs.
Qed.

Lemma discovery_rel_eq d e : discovery_rel eq d e → d = e.
Proof.
  destruct d, e. unfold discovery_rel. simpl.
  intros (-> & -> & -> & -> & ->%job_rel_eq). reflexivity.
Qed.

(** Two firms that agree but for the posted texts of their jobs: the same
    fields, and job lists of one length with, at each position, the same
    title, type, salary and URL. *)
Definition same_but_posted (f g : firm_record) : Prop :=
  firm_rel (λ _ _, True) f g.

(** The job lists of a run with the clock at [now], on the database with
    the firm Acme alone. *)
Definition demo_run (now : Z) : list (list job_record) :=
  jobs <$> fst (passes demo_platform (demo_world now None) [acme]).

(** C2, as the specification has it, fails: with the same database and the
    same answers, a run and a run one millisecond later, when the posting
    of Acme becomes one day old, give job lists that are not equal as sets:
    the posting is posted "Today" in the first and "1 day ago" in the
    second. *)
Lemma rerun_can_change_posted :
  ¬ Forall2 (λ jobs1 jobs2 : list job_record, ∀ j, j ∈ jobs1 ↔ j ∈ jobs2)
      (demo_run 86399999) (demo_run 86400000).
Proof.
  change (demo_run 86399999)
    with [[Job "Architect" (JStr "Full-time") "See listing" "Today" ""]].
  change (demo_run 86400000)
    with [[Job "Architect" (JStr "Full-time") "See listing" "1 day ago" ""]].
  intros H. apply Forall2_cons in H as [H _].
  specialize (H (Job "Architect" (JStr "Full-time") "See listing" "Today" "")).
  apply proj1 in H. specialize (H ltac:(left)).
  apply list_elem_of_singleton in H. discriminate H.
Qed.

(** C2, amended. Two runs on the same database and the same answers end
    with firms that agree but for the posted texts of the jobs, which come
    from the clock: no job is added, lost or repeated. When the posted
    texts that the two clocks give agree, the two runs end with the same
    firms and discoveries, and write the same files. The jobs of the
    database play no part: every list is emptied first. *)
Theorem rerun_agrees_up_to_posted (P : platform)
    (gh : string -> reply (option (list Gh.posting)))
    (lv : string -> reply (option (list Lv.posting)))
    (js : string -> string -> reply (option (list JSearch.result)))
    (key : option string) (clk1 clk2 : site -> nat -> Z)
    (firms : list firm_record) :
  let w1 := World gh lv js clk1 key in
  let w2 := World gh lv js clk2 key in
  Forall2 same_but_posted (fst (passes P w1 firms)) (fst (passes P w2 firms))
  ∧ ((∀ s k d, timeAgo P (clk1 s k) d = timeAgo P (clk2 s k) d) →
     passes P w1 firms = passes P w2 firms
     ∧ ∀ files : gmap string string, main P w1 files = main P w2 files)
  ∧ (∀ firms',
       set_jobs [] <$> firms' = set_jobs [] <$> firms →
       passes P w1 firms' = passes P w1 firms).
Proof.
  intros w1 w2. split_and!.
  - by apply (passes_rel P gh lv js key clk1 clk2 (λ _ _, True)).
  - intros Hclock.
    assert (Hpasses : ∀ l, passes P w1 l = passes P w2 l).
    { intros l.
      destruct (passes_rel P gh lv js key clk1 clk2 eq (λ _, eq_refl) Hclock l)
        as [Hfirms Hdisc].
      fold w1 w2 in Hfirms, Hdisc.
      destruct (passes P w1 l) as [l1 d1], (passes P w2 l) as [l2 d2]. simpl in *.
      f_equal.
      - exact (Forall2_rel_eq _ _ _ firm_rel_eq Hfirms).
      - apply option_eq_Forall2. destruct Hdisc as [u1 u2 Hu|]; constructor.
        exact (Forall2_rel_eq _ _ _ discovery_rel_eq Hu). }
    split; [apply Hpasses|].
    intros files. unfold main.
    destruct (files !! FIRMS_BASE) as [text|]; [|done]. simpl.
    destruct (read_firms P text) as [l|]; [|done]. simpl.
    by rewrite Hpasses.
  - intros firms' Hfirms. unfold passes. by rewrite Hfirms.
Qed.

(** Two clocks one millisecond apart within the first day of the posting
    of Acme: the two runs end alike. *)
Lemma rerun_agrees_up_to_posted_witness :
  (∀ (s : site) (k : nat) d, timeAgo demo_platform 0 d = timeAgo demo_platform 1 d)
  ∧ passes demo_platform (demo_world 0 (Some "key")) [acme]
    = passes demo_platform (demo_world 1 (Some "key")) [acme].
Proof.
  split; [reflexivity|].
  apply (rerun_agrees_up_to_posted demo_platform
           (greenhouse_api (demo_world 0 None)) (lever_api (demo_world 0 None))
           (jsearch_api (demo_world 0 None)) (Some "key")
           (λ _ _, 0%Z) (λ _ _, 1%Z) [acme]).
  reflexivity.
Defined.

End FetcherFacts.

(** * More on strings and regular expressions *)

Module ReLaws.

Import Re.

(** The characters of [s] that satisfy [p], and whether all do. *)
Fixpoint keep (p : ascii -> bool) (s : string) : string :=
  match s with
  | EmptyString => EmptyString
  | String c s' => if p c then String c (keep p s') else keep p s'
  end.

Fixpoint all_chars (p : ascii -> bool) (s : string) : bool :=
  match s with
  | EmptyString => true
  | String c s' => p c && all_chars p s'
  end.

Lemma append_nil_l t : "" ++ t = t.
Proof. reflexivity. Qed.

Lemma append_cons c s t : String c s ++ t = String c (s ++ t).
Proof. reflexivity. Qed.

Lemma append_nil_r s : s ++ "" = s.
Proof. induction s as [|c s IH]; [done|]. by rewrite append_cons, IH. Qed.

Lemma append_assoc s t u : (s ++ t) ++ u = s ++ t ++ u.
Proof. induction s as [|c s IH]; [done|]. by rewrite !append_cons, IH. Qed.

Lemma length_append s t : String.length (s ++ t) = String.length s + String.length t.
Proof. induction s as [|c s IH]; [done|]. rewrite append_cons. simpl. by rewrite IH. Qed.

Lemma take_append s t : Js.take (String.length s) (s ++ t) = s.
Proof.
  unfold Js.take. induction s as [|c s IH].
  - rewrite append_nil_l. by destruct t.
  - rewrite append_cons. simpl. by rewrite IH.
Qed.

Lemma drop_append s t : Js.drop (String.length s) (s ++ t) = t.
Proof. induction s as [|c s IH]; [done|]. rewrite append_cons. simpl. exact IH. Qed.

Lemma take_drop s n : Js.take n s ++ Js.drop n s = s.
Proof.
  unfold Js.take. revert n.
  induction s as [|c s IH]; intros [|n]; simpl; try done.
  by rewrite append_cons, IH.
Qed.

Lemma keep_append p s t : keep p (s ++ t) = keep p s ++ keep p t.
Proof.
  induction s as [|c s IH]; [done|]. rewrite append_cons. simpl. rewrite IH.
  by destruct (p c).
Qed.

Lemma all_chars_keep p s : all_chars p (keep p s) = true.
Proof.
  induction s as [|c s IH]; simpl; [done|].
  destruct (p c) eqn:Hc; simpl; [by rewrite Hc|done].
Qed.

Lemma all_chars_append p s t :
  all_chars p (s ++ t) = all_chars p s && all_chars p t.
Proof.
  induction s as [|c s IH]; [done|]. rewrite append_cons. simpl.
  by rewrite IH, andb_assoc.
Qed.

Lemma all_chars_take p n s : all_chars p s = true → all_chars p (Js.take n s) = true.
Proof.
  intros H. rewrite <- (take_drop s n), all_chars_append in H.
  by apply andb_true_iff in H as [H _].
Qed.

Lemma all_chars_drop p n s : all_chars p s = true → all_chars p (Js.drop n s) = true.
Proof.
  intros H. rewrite <- (take_drop s n), all_chars_append in H.
  by apply andb_true_iff in H as [_ H].
Qed.

(** ** A class under the flag [g] *)

Lemma search_Chr p i s :
  search (Chr p) i s
  = match s with
    | EmptyString => None
    | String c s' => if p c then Some (i, S i, None) else search (Chr p) (S i) s'
    end.
Proof. destruct s as [|c s]; simpl; unfold match_at; simpl; [done|]. by destruct (p c). Qed.

(** The first match of a class: after the characters outside the class. *)
Lemma search_Chr_spec p s i :
  match search (Chr p) i s with
  | None => keep (λ c, negb (p c)) s = s
  | Some (b, e, _) =>
      ∃ pre c rest,
        s = pre ++ String c rest ∧ keep (λ c, negb (p c)) pre = pre ∧ p c = true
        ∧ b = i + String.length pre ∧ e = S b
  end.
Proof.
  revert i. induction s as [|c s IH]; intros i; rewrite search_Chr; [done|].
  destruct (p c) eqn:Hc.
  - exists "", c, s. simpl. by rewrite Nat.add_0_r.
  - specialize (IH (S i)). destruct (search (Chr p) (S i) s) as [[[b e] cap]|].
    + destruct IH as (pre & d & rest & -> & Hpre & Hd & -> & ->).
      exists (String c pre), d, rest. simpl. rewrite Hc. simpl. rewrite Hpre.
      split_and!; (done || lia).
    + simpl. rewrite Hc. simpl. by rewrite IH.
Qed.

(** Removing a class under the flag [g] keeps the other characters. *)
Lemma replace_from_Chr p fuel s i :
  String.length s < fuel →
  replace_from fuel (Chr p) "" i s = keep (λ c, negb (p c)) s.
Proof.
  revert s i. induction fuel as [|fuel IH]; intros s i Hfuel; [lia|].
  simpl. pose proof (search_Chr_spec p s i) as Hsearch.
  destruct (search (Chr p) i s) as [[[b e] cap]|]; [|done].
  destruct Hsearch as (pre & c & rest & -> & Hpre & Hc & -> & ->).
  replace (S (i + String.length pre) =? i + String.length pre) with false
    by (symmetry; apply Nat.eqb_neq; lia).
  replace (i + String.length pre - i) with (String.length pre) by lia.
  replace (S (i + String.length pre) - i) with (String.length (pre ++ String c ""))
    by (rewrite length_append; simpl; lia).
  rewrite take_append.
  replace (pre ++ String c rest) with ((pre ++ String c "") ++ rest)
    by (by rewrite append_assoc).
  rewrite drop_append, IH.
  - rewrite !keep_append, Hpre. simpl. rewrite Hc. simpl.
    by rewrite append_nil_r.
  - rewrite !length_append in Hfuel. simpl in Hfuel. lia.
Qed.

Lemma replace_g_Chr p s :
  replace_g (Chr p) "" s = keep (λ c, negb (p c)) s.
Proof. unfold replace_g. apply replace_from_Chr. lia. Qed.

(** ** Removing matches keeps the characters of the text *)

Lemma all_chars_replace_from p r fuel i s :
  all_chars p s = true → all_chars p (replace_from fuel r "" i s) = true.
Proof.
  revert i s. induction fuel as [|fuel IH]; intros i s Hs; simpl; [done|].
  destruct (search r i s) as [[[b e] cap]|]; [|done].
  destruct (e =? b).
  - pose proof (all_chars_drop p (b - i) s Hs) as Hdrop.
    destruct (Js.drop (b - i) s) as [|c t].
    + rewrite all_chars_append, all_chars_take by done. done.
    + simpl in Hdrop. apply andb_true_iff in Hdrop as [Hc Ht].
      rewrite all_chars_append, all_chars_take by done. simpl.
      rewrite Hc. simpl. by apply IH.
  - rewrite all_chars_append, all_chars_take by done. simpl.
    apply IH. by apply all_chars_drop.
Qed.

(** ** A literal replaced by itself *)

Lemma prefix_append p s : String.prefix p s = true → s = p ++ Js.drop (String.length p) s.
Proof.
  revert s. induction p as [|c p IH]; intros s H; simpl in *; [by destruct s|].
  destruct s as [|d s]; [done|].
  change (String.prefix (String c p) (String d s))
    with (if ascii_dec c d then String.prefix p s else false) in H.
  destruct (ascii_dec c d) as [->|]; [|done].
  rewrite append_cons. simpl. f_equal. by apply IH.
Qed.

Lemma run_Lit {R : Type} p i s cap (k : nat -> string -> capture -> option R) :
  run (Lit p) i s cap k
  = if String.prefix p s
    then k (i + String.length p) (Js.drop (String.length p) s) cap
    else None.
Proof.
  revert i s. induction p as [|c p IH]; intros i s; simpl.
  - rewrite Nat.add_0_r. by destruct s.
  - destruct s as [|d s]; [done|].
    change (String.prefix (String c p) (String d s))
      with (if ascii_dec c d then String.prefix p s else false).
    destruct (ascii_dec c d) as [->|Hne].
    + rewrite Ascii.eqb_refl, IH.
      by replace (S i + String.length p) with (i + S (String.length p)) by lia.
    + by apply Ascii.eqb_neq in Hne as ->.
Qed.

Lemma search_Lit_spec p s i b e cap :
  search (Lit p) i s = Some (b, e, cap) →
  ∃ pre rest,
    s = pre ++ p ++ rest ∧ b = i + String.length pre ∧ e = b + String.length p.
Proof.
  revert i. induction s as [|c s IH]; intros i; simpl; unfold match_at;
    rewrite run_Lit.
  - destruct (String.prefix p "") eqn:Hp; [|done].
    intros [= <- <- <-]. exists "", (Js.drop (String.length p) "").
    simpl. split; [by apply prefix_append|]. lia.
  - destruct (String.prefix p (String c s)) eqn:Hp.
    + intros [= <- <- <-]. exists "", (Js.drop (String.length p) (String c s)).
      simpl. split; [by apply prefix_append|]. lia.
    + intros (pre & rest & -> & -> & ->)%IH.
      exists (String c pre), rest. simpl. split; [done|]. lia.
Qed.

Lemma replace_from_Lit_id p fuel i s : replace_from fuel (Lit p) p i s = s.
Proof.
  revert i s. induction fuel as [|fuel IH]; intros i s; simpl; [done|].
  destruct (search (Lit p) i s) as [[[b e] cap]|] eqn:Hsearch; [|done].
  apply search_Lit_spec in Hsearch as (pre & rest & -> & -> & ->).
  replace (i + String.length pre - i) with (String.length pre) by lia.
  rewrite take_append, drop_append.
  destruct (_ =? _) eqn:Hempty.
  - apply Nat.eqb_eq in Hempty.
    assert (p = "") as -> by (destruct p; [done | simpl in Hempty; lia]).
    rewrite !append_nil_l. destruct rest as [|c t]; [done|]. by rewrite IH.
  - replace (i + String.length pre + String.length p - i)
      with (String.length (pre ++ p)) by (rewrite length_append; lia).
    rewrite <- (append_assoc pre p rest), drop_append, IH.
    by rewrite append_assoc.
Qed.

Lemma replace_g_Lit_id p s : replace_g (Lit p) p s = s.
Proof. apply replace_from_Lit_id. Qed.

(** ** Positions of a match *)

(** A match goes on with the continuation at a position that is not
    before its start. *)
Lemma iterate_through {R : Type}
    (body : nat -> string -> capture ->
            (nat -> string -> capture -> option R) -> option R)
    (k : nat -> string -> capture -> option R) (x : R) :
  (∀ i s cap k', body i s cap k' = Some x →
     ∃ j t c, i ≤ j ∧ k' j t c = Some x) →
  ∀ fuel i s cap,
    iterate body k fuel i s cap = Some x →
    ∃ j t c, i ≤ j ∧ k j t c = Some x.
Proof.
  intros Hbody. induction fuel as [|fuel IH]; intros i s cap H.
  { simpl in H. by exists i, s, cap. }
  cbn [iterate] in H.
  destruct (body i s cap _) as [y|] eqn:Hy.
  - injection H as ->.
    apply Hbody in Hy as (j & t & c & Hij & Hk).
    destruct (j =? i); [done|].
    apply IH in Hk as (j' & t' & c' & Hjj' & Hk). exists j', t', c'.
    split; [lia|done].
  - by exists i, s, cap.
Qed.

Lemma run_through {R : Type} (r : re) (x : R) :
  ∀ i s cap (k : nat -> string -> capture -> option R),
    run r i s cap k = Some x →
    ∃ j t c, i ≤ j ∧ k j t c = Some x.
Proof.
  induction r as [|p|a IHa b IHb|a IHa b IHb|a IHa|a IHa| |];
    intros i s cap k H; cbn [run] in H.
  - by exists i, s, cap.
  - destruct s as [|c s]; [done|]. destruct (p c); [|done].
    exists (S i), s, cap. split; [lia|done].
  - apply IHa in H as (j & t & c & Hij & H).
    apply IHb in H as (j' & t' & c' & Hjj' & H).
    exists j', t', c'. split; [lia|done].
  - destruct (run a i s cap k) as [y|] eqn:Hy.
    + injection H as ->. by apply IHa in Hy.
    + by apply IHb in H.
  - by eapply iterate_through.
  - apply IHa in H as (j & t & c & Hij & H). by exists j, t, (Some (i, j)).
  - destruct (i =? 0); [|done]. by exists i, s, cap.
  - destruct s; [|done]. by exists i, "", cap.
Qed.

(** The leftmost match is a match at its start, which is not before the
    position that the search starts from. *)
Lemma search_match_at r i s b e cap :
  search r i s = Some (b, e, cap) →
  ∃ n, b = i + n ∧ match_at r b (Js.drop n s) = Some (e, cap).
Proof.
  revert i. induction s as [|c s IH]; intros i H; cbn [search] in H.
  - destruct (match_at r i "") as [[j c]|] eqn:Hm; [|done].
    injection H as <- <- <-. exists 0. split; [lia|done].
  - destruct (match_at r i (String c s)) as [[j c']|] eqn:Hm.
    + injection H as <- <- <-. exists 0. split; [lia|done].
    + apply IH in H as (n & -> & H). exists (S n). split; [lia|done].
Qed.
End ReLaws.

(** * More on the slug discoverer *)

Module DiscovererLaws.

Import Discoverer.

(** ** Sets and sorting *)

Lemma elem_of_set_add x y s : x ∈ set_add y s ↔ x = y ∨ x ∈ s.
Proof.
  unfold set_add. destruct (decide (y ∈ s)) as [Hy|Hy].
  - split; [by right|]. by intros [->|?].
  - rewrite elem_of_app, list_elem_of_singleton. tauto.
Qed.

Lemma NoDup_set_add y s : NoDup s → NoDup (set_add y s).
Proof.
  intros Hs. unfold set_add. destruct (decide (y ∈ s)) as [Hy|Hy]; [done|].
  apply NoDup_app. split_and!; [done| |apply NoDup_singleton].
  intros x Hx ->%list_elem_of_singleton. done.
Qed.

Lemma length_set_add y s : length (set_add y s) ≤ S (length s).
Proof.
  unfold set_add. destruct (decide (y ∈ s)); [lia|].
  rewrite length_app. simpl. lia.
Qed.

Lemma sort_insert_perm {A : Type} (cmp : A -> A -> Z) x l :
  sort_insert cmp x l ≡ₚ x :: l.
Proof.
  induction l as [|y l IH]; simpl; [done|].
  destruct (cmp x y <=? 0)%Z; [done|]. rewrite IH. apply Permutation_swap.
Qed.

Lemma sort_perm {A : Type} (cmp : A -> A -> Z) l : sort cmp l ≡ₚ l.
Proof.
  unfold sort. induction l as [|x l IH]; simpl; [done|].
  by rewrite sort_insert_perm, IH.
Qed.

(** Every element precedes, in the order [R], the elements after it. *)
Fixpoint ordered {A : Type} (R : A -> A -> Prop) (l : list A) : Prop :=
  match l with
  | [] => True
  | x :: l' => Forall (R x) l' ∧ ordered R l'
  end.

Lemma ordered_lookup {A : Type} (R : A -> A -> Prop) l i j a b :
  ordered R l → i < j → l !! i = Some a → l !! j = Some b → R a b.
Proof.
  revert i j. induction l as [|x l IH]; intros i j Hord Hij Hi Hj; [done|].
  destruct Hord as [Hx Hl].
  destruct j as [|j]; [lia|]. destruct i as [|i]; simpl in *.
  - injection Hi as ->. eapply Forall_forall; [exact Hx|].
    by eapply list_elem_of_lookup_2.
  - apply (IH i j); [done|lia|done..].
Qed.

Section Sorting.

Context {A : Type} (cmp : A -> A -> Z).
Hypothesis cmp_total : ∀ a b, (cmp a b <= 0)%Z ∨ (cmp b a <= 0)%Z.
Hypothesis cmp_trans :
  ∀ a b c, (cmp a b <= 0)%Z → (cmp b c <= 0)%Z → (cmp a c <= 0)%Z.

Lemma ordered_sort_insert x l :
  ordered (λ a b, (cmp a b <= 0)%Z) l →
  ordered (λ a b, (cmp a b <= 0)%Z) (sort_insert cmp x l).
Proof.
  induction l as [|y l IH]; intros Hl; simpl.
  - split; [constructor | done].
  - destruct Hl as [Hy Hl]. destruct (cmp x y <=? 0)%Z eqn:Hxy.
    + apply Z.leb_le in Hxy. split; [|done]. constructor; [done|].
      eapply Forall_impl; [exact Hy|]. intros z Hz. by eapply cmp_trans.
    + apply Z.leb_gt in Hxy. split; [|by apply IH].
      rewrite sort_insert_perm. constructor; [|done].
      destruct (cmp_total x y); [lia | done].
Qed.

Lemma ordered_sort l : ordered (λ a b, (cmp a b <= 0)%Z) (sort cmp l).
Proof.
  unfold sort. induction l as [|x l IH]; simpl; [done|].
  by apply ordered_sort_insert.
Qed.

End Sorting.

(** The order of the candidates: shorter first, then fewer hyphens. *)
Definition simpler (a b : string) : Prop :=
  String.length a < String.length b
  ∨ (String.length a = String.length b
     ∧ Re.count_g re_hyphen a ≤ Re.count_g re_hyphen b).

Lemma compare_slugs_simpler a b : (compare_slugs a b <= 0)%Z ↔ simpler a b.
Proof.
  unfold compare_slugs, simpler.
  destruct (String.length a =? String.length b) eqn:Hlen; simpl.
  - apply Nat.eqb_eq in Hlen. lia.
  - apply Nat.eqb_neq in Hlen. lia.
Qed.

Lemma ordered_impl {A : Type} (R Q : A -> A -> Prop) l :
  (∀ a b, R a b → Q a b) → ordered R l → ordered Q l.
Proof.
  intros HRQ. induction l as [|x l IH]; simpl; [done|].
  intros [Hx Hl]. split; [|by apply IH].
  eapply Forall_impl; [exact Hx|]. intros y. apply HRQ.
Qed.

Lemma nonempty_spec (s : string) :
  negb (String.eqb s "") && (0 <? String.length s) = true ↔ s ≠ "".
Proof. destruct s; simpl; split; done. Qed.

Lemma generateSlugCandidates_sorted URL_hostname firm :
  ordered simpler (generateSlugCandidates URL_hostname firm).
Proof.
  unfold generateSlugCandidates. cbv zeta.
  eapply ordered_impl; [intros a b; apply compare_slugs_simpler|].
  apply ordered_sort.
  - intros a b. rewrite !compare_slugs_simpler. unfold simpler. lia.
  - intros a b c. rewrite !compare_slugs_simpler. unfold simpler. lia.
Qed.

(** X1. The candidates come out in the order of preference: of two
    candidates, the earlier one is shorter, or as long with no more
    hyphens. *)
Theorem candidates_in_order_of_preference (URL_hostname : string -> option string)
    (firm : firm_record) (i j : nat) (a b : string) :
  i < j →
  generateSlugCandidates URL_hostname firm !! i = Some a →
  generateSlugCandidates URL_hostname firm !! j = Some b →
  String.length a < String.length b
  ∨ (String.length a = String.length b
     ∧ Re.count_g re_hyphen a ≤ Re.count_g re_hyphen b).
Proof.
  intros Hij Ha Hb.
  exact (ordered_lookup simpler _ i j a b
           (generateSlugCandidates_sorted URL_hostname firm) Hij Ha Hb).
Qed.

Lemma candidates_in_order_of_preference_witness :
  generateSlugCandidates (λ _, None) DiscovererFacts.foo_bar !! 1 = Some "foo"
  ∧ generateSlugCandidates (λ _, None) DiscovererFacts.foo_bar !! 3
    = Some "foo-and-bar-architects-fba"
  ∧ (String.length "foo" < String.length "foo-and-bar-architects-fba"
     ∨ (String.length "foo" = String.length "foo-and-bar-architects-fba"
        ∧ Re.count_g re_hyphen "foo"
          ≤ Re.count_g re_hyphen "foo-and-bar-architects-fba")).
Proof.
  split; [reflexivity|]. split; [reflexivity|].
  apply (candidates_in_order_of_preference (λ _, None) DiscovererFacts.foo_bar 1 3);
    [lia | reflexivity | reflexivity].
Defined.

(** What the final filter and sort keep of a set of candidates. *)
Definition finish (candidates : list string) : list string :=
  sort compare_slugs
    (filter (λ s, negb (String.eqb s "") && (0 <? String.length s) = true)
       candidates).

Lemma elem_of_finish x candidates :
  x ∈ finish candidates ↔ x ≠ "" ∧ x ∈ candidates.
Proof.
  unfold finish. rewrite sort_perm, list_elem_of_filter.
  by rewrite nonempty_spec.
Qed.

Lemma NoDup_finish candidates : NoDup candidates → NoDup (finish candidates).
Proof. intros H. unfold finish. rewrite sort_perm. by apply NoDup_filter. Qed.

Lemma length_finish candidates : length (finish candidates) ≤ length candidates.
Proof. unfold finish. rewrite sort_perm. apply length_filter. Qed.

(** Case analysis on the conditions under which a strategy adds its
    candidate. *)
Ltac strategies :=
  repeat match goal with
    | |- context [if ?c then _ else _] => destruct c
    | |- context [match ?o with Some _ => _ | None => _ end] => destruct o
    end.

Lemma set_add_elem x s : x ∈ s → set_add x s = s.
Proof. intros H. unfold set_add. by rewrite decide_True. Qed.

(** X2. The candidates are pairwise distinct, none is the empty string,
    and there are at most six of them. *)
Theorem candidates_distinct_nonempty (URL_hostname : string -> option string)
    (firm : firm_record) :
  NoDup (generateSlugCandidates URL_hostname firm)
  ∧ ("" ∉ generateSlugCandidates URL_hostname firm)
  ∧ length (generateSlugCandidates URL_hostname firm) ≤ 6.
Proof.
  unfold generateSlugCandidates. cbv zeta.
  rewrite !ReLaws.replace_g_Lit_id. split_and!.
  - apply NoDup_finish.
    strategies; repeat apply NoDup_set_add; apply NoDup_nil_2.
  - intros [H _]%elem_of_finish. done.
  - etrans; [apply length_finish|].
    rewrite set_add_elem
      by (strategies; rewrite !elem_of_set_add; auto).
    strategies;
      repeat (etrans; [apply length_set_add|]; apply le_n_S || apply le_S);
      simpl; lia.
Qed.

(** Lengths of the pieces of a name. *)
Lemma length_trimStart s : String.length (Js.trimStart s) ≤ String.length s.
Proof.
  induction s as [|c s IH]; simpl; [done|]. destruct (Js.is_space c); simpl; lia.
Qed.

Lemma length_rev_app s t :
  String.length (String.rev_app s t) = String.length s + String.length t.
Proof.
  revert t. induction s as [|c s IH]; intros t; simpl; [done|].
  rewrite IH. simpl. lia.
Qed.

Lemma length_string_rev s : String.length (String.rev s) = String.length s.
Proof. unfold String.rev. rewrite length_rev_app. simpl. lia. Qed.

Lemma length_trim s : String.length (Js.trim s) ≤ String.length s.
Proof.
  unfold Js.trim, Js.trimEnd. rewrite length_string_rev.
  etrans; [apply length_trimStart|]. rewrite length_string_rev. apply length_trimStart.
Qed.

Lemma length_js_take n s : String.length (Js.take n s) ≤ n.
Proof.
  unfold Js.take. revert n. induction s as [|c s IH]; intros [|n]; simpl; try lia.
  specialize (IH n). lia.
Qed.

Lemma length_string_prefix p s : String.prefix p s = true → String.length p ≤ String.length s.
Proof.
  revert s. induction p as [|c p IH]; intros s H; simpl; [lia|].
  destruct s as [|d s]; [done|].
  change (String.prefix (String c p) (String d s))
    with (if ascii_dec c d then String.prefix p s else false) in H.
  destruct (ascii_dec c d); [|done]. apply IH in H. simpl. lia.
Qed.

Lemma length_endsWith s suffix :
  Js.endsWith s suffix = true → String.length suffix ≤ String.length s.
Proof.
  unfold Js.endsWith. intros H%length_string_prefix. by rewrite !length_string_rev in H.
Qed.

Lemma suffixes_nonempty suffix : suffix ∈ suffixes → 0 < String.length suffix.
Proof.
  unfold suffixes. intros H.
  repeat (apply elem_of_cons in H as [->|H]; [simpl; lia|]).
  by apply elem_of_nil in H.
Qed.

(** ** The acronym *)

Lemma run_Chr_first {R : Type} (p : ascii -> bool) (a b : Re.re) i s cap
    (k : nat -> string -> Re.capture -> option R) x :
  Re.run (Re.Seq (Re.Seq (Re.Chr p) a) b) i s cap k = Some x →
  ∃ c s', s = String c s' ∧ p c = true
          ∧ Re.run (Re.Seq a b) (S i) s' cap k = Some x.
Proof.
  cbn [Re.run]. destruct s as [|c s']; [done|].
  destruct (p c) eqn:Hc; [|done]. intros H. by exists c, s'.
Qed.

(** A match of the acronym pattern starts with an opening parenthesis and
    a capital letter, where the group starts; the group is not empty. *)
Lemma acronym_match_at b t e cap :
  Re.match_at re_acronym b t = Some (e, cap) →
  ∃ c rest j,
    t = String "(" (String c rest) ∧ Js.is_upper c = true
    ∧ cap = Some (S b, j) ∧ S (S b) ≤ j.
Proof.
  unfold Re.match_at, re_acronym, Re.Plus. cbn [Re.Lit]. intros H.
  apply run_Chr_first in H as (c0 & t' & -> & Hc0 & H).
  apply Ascii.eqb_eq in Hc0 as <-.
  change (Re.run (Re.Seq (Re.Seq (Re.Chr Js.is_upper) (Re.Star (Re.Chr Js.is_upper)))
                    (Re.Star (Re.Seq (Re.Seq Re.space (Re.Star Re.space))
                                (Re.Seq (Re.Chr Js.is_upper)
                                   (Re.Star (Re.Chr Js.is_upper))))))
            (S b) t' None
            (λ j u _,
               Re.run (Re.Seq (Re.Chr (Ascii.eqb ")")) Re.Eps) j u (Some (S b, j))
                 (λ j _ c, Some (j, c)))
          = Some (e, cap)) in H.
  apply run_Chr_first in H as (c & rest & -> & Hc & H).
  apply ReLaws.run_through in H as (j & u & c' & Hj & H).
  cbn [Re.run] in H. destruct u as [|d u]; [done|].
  destruct (Ascii.eqb ")" d); [|done]. injection H as <- <-.
  by exists c, rest, j.
Qed.

Lemma substring_drop n m s c0 c rest :
  Js.drop n s = String c0 (String c rest) →
  String.substring (S n) (S m) s = String c (String.substring 0 m rest).
Proof.
  revert s. induction n as [|n IH]; intros s H.
  - simpl in H. subst s. reflexivity.
  - destruct s as [|d s]; [done|]. simpl in H. by apply IH in H.
Qed.

Lemma match1_acronym name group :
  Re.match1 re_acronym name = Some group →
  ∃ c rest, group = String c rest ∧ Js.is_upper c = true.
Proof.
  unfold Re.match1.
  destruct (Re.search re_acronym 0 name) as [[[b0 e0] [[b e]|]]|] eqn:Hs;
    [|done..].
  intros [= <-]. apply ReLaws.search_match_at in Hs as (n & -> & Hm).
  apply acronym_match_at in Hm as (c & rest & j & Hdrop & Hup & [= -> ->] & Hj).
  change (0 + n) with n in *.
  destruct (j - S n) as [|m] eqn:Hm; [lia|].
  exists c, (String.substring 0 m rest). split; [|done].
  by eapply substring_drop.
Qed.

Lemma lower_char_no_space c : Js.is_upper c = true → Js.is_space (Js.lower_char c) = false.
Proof. destruct c as [[] [] [] [] [] [] [] []]; vm_compute; congruence. Qed.

Lemma remove_spaces_nonempty c s :
  Js.is_space c = false → Re.replace_g re_spaces "" (String c s) ≠ "".
Proof.
  intros Hc. unfold Re.replace_g. cbn [Re.replace_from].
  destruct (Re.search re_spaces 0 (String c s)) as [[[b e] cap]|] eqn:Hs; [|done].
  cbn [Re.search] in Hs.
  assert (Re.match_at re_spaces 0 (String c s) = None) as Hnone.
  { unfold Re.match_at, re_spaces, Re.Plus, Re.space. cbn [Re.run]. by rewrite Hc. }
  rewrite Hnone in Hs. apply ReLaws.search_match_at in Hs as (n & -> & _).
  change (Js.take (1 + n - 0) (String c s)) with (String c (Js.take n s)).
  destruct (e =? 1 + n); [destruct (Js.drop _ _)|];
    by rewrite ReLaws.append_cons.
Qed.

Lemma acronym_nonempty name group :
  Re.match1 re_acronym name = Some group →
  Re.replace_g re_spaces "" (Js.toLowerCase group) ≠ "".
Proof.
  intros (c & rest & -> & Hc)%match1_acronym. cbn [Js.toLowerCase].
  by apply remove_spaces_nonempty, lower_char_no_space.
Qed.

(** X3. The acronym in parentheses, in small letters and without white
    space, is a candidate. *)
Theorem acronym_is_candidate (URL_hostname : string -> option string)
    (firm : firm_record) (group : string) :
  Re.match1 re_acronym (name firm) = Some group →
  Re.replace_g re_spaces "" (Js.toLowerCase group)
  ∈ generateSlugCandidates URL_hostname firm.
Proof.
  intros Hmatch. pose proof (acronym_nonempty _ _ Hmatch) as Hne.
  unfold generateSlugCandidates. cbv zeta. rewrite Hmatch.
  apply elem_of_finish. split; [done|].
  strategies; rewrite !elem_of_set_add; auto 10.
Qed.

Lemma acronym_is_candidate_witness :
  Re.match1 re_acronym (name DiscovererFacts.foo_bar) = Some "FBA"
  ∧ "fba" ∈ generateSlugCandidates (λ _, None) DiscovererFacts.foo_bar.
Proof.
  split; [reflexivity|].
  apply (acronym_is_candidate (λ _, None) DiscovererFacts.foo_bar "FBA").
  reflexivity.
Defined.

(** X4. When the name, in small letters and trimmed, ends with a suffix of
    the list, the name without this suffix, trimmed again, is a candidate
    (unless nothing is left of it). *)
Theorem name_without_suffix_is_candidate (URL_hostname : string -> option string)
    (firm : firm_record) (suffix : string) :
  let cleanName := Js.trim (Js.toLowerCase (name firm)) in
  let baseName :=
    Js.trim (Js.take (String.length cleanName - String.length suffix) cleanName) in
  List.find (Js.endsWith cleanName) suffixes = Some suffix →
  baseName ≠ "" →
  baseName ∈ generateSlugCandidates URL_hostname firm.
Proof.
  intros cleanName baseName Hfind Hne.
  assert (Hdiff : String.eqb baseName cleanName = false).
  { apply String.eqb_neq. intros Heq.
    apply find_some in Hfind as [Hin Hends].
    apply list_elem_of_In, suffixes_nonempty in Hin.
    apply length_endsWith in Hends.
    pose proof (length_trim
                  (Js.take (String.length cleanName - String.length suffix) cleanName)).
    pose proof (length_js_take (String.length cleanName - String.length suffix) cleanName).
    fold baseName in H. rewrite Heq in H. lia. }
  unfold generateSlugCandidates. cbv zeta.
  fold cleanName. rewrite Hfind. fold baseName. rewrite Hdiff. simpl negb.
  apply elem_of_finish. split; [done|].
  strategies; rewrite !elem_of_set_add; auto 10.
Qed.

Lemma name_without_suffix_is_candidate_witness :
  let firm :=
    Firm None "Snohetta Design Group" None None None None None None None []
      None None None None in
  List.find (Js.endsWith (Js.trim (Js.toLowerCase (name firm)))) suffixes
  = Some "group"
  ∧ "snohetta design" ∈ generateSlugCandidates (λ _, None) firm.
Proof.
  intros firm. split; [reflexivity|].
  apply (name_without_suffix_is_candidate (λ _, None) firm "group");
    [reflexivity | discriminate].
Defined.

(** X5. When the website parses, the first label of its host name, after
    the first "www." is removed, is a candidate in small letters. *)
Theorem website_domain_is_candidate (URL_hostname : string -> option string)
    (firm : firm_record) (w hostname : string) :
  let domain := Re.split_head (Re.Lit ".") (Re.replace (Re.Lit "www.") "" hostname) in
  website firm = Some w →
  w ≠ "" →
  URL_hostname w = Some hostname →
  domain ≠ "" →
  Js.toLowerCase domain ∈ generateSlugCandidates URL_hostname firm.
Proof.
  intros domain Hw Hne Hhost Hdomain.
  unfold generateSlugCandidates. cbv zeta. rewrite Hw.
  unfold Js.truthy. change (default "" (Some w)) with w.
  apply String.eqb_neq in Hne as ->. cbn [negb]. rewrite Hhost. fold domain.
  assert (negb (String.eqb domain "") && (0 <? String.length domain) = true)
    as -> by (by apply nonempty_spec).
  apply elem_of_finish. split; [by destruct domain|].
  strategies; rewrite !elem_of_set_add; auto 10.
Qed.

Lemma website_domain_is_candidate_witness :
  let firm :=
    Firm None "Snohetta" None None None None None None None []
      (Some "https://www.Snohetta.com/jobs") None None None in
  let URL_hostname := λ _ : string, Some "www.snohetta.com" in
  website firm = Some "https://www.Snohetta.com/jobs"
  ∧ "snohetta" ∈ generateSlugCandidates URL_hostname firm.
Proof.
  intros firm URL_hostname. split; [reflexivity|].
  apply (website_domain_is_candidate URL_hostname firm
           "https://www.Snohetta.com/jobs" "www.snohetta.com");
    [reflexivity | discriminate | reflexivity | discriminate].
Defined.

(** X6. The strategy for the "and" variant adds nothing: its two
    replacements give back the normalized name. *)
Theorem and_variant_is_normalized (normalized : string) :
  Re.replace_g (Re.Lit "-and-") "-and-"
    (Re.replace_g (Re.Lit "and") "and" normalized)
  = normalized.
Proof. by rewrite !ReLaws.replace_g_Lit_id. Qed.


(** ** Where the candidates come from *)

(** The clean name after the replacements of the third strategy. *)
Definition normalized_name (cleanName : string) : string :=
  Re.replace_g re_edge_hyphens ""
    (Re.replace_g re_hyphens "-"
       (Re.replace_g re_spaces "-"
          (Re.replace_g re_punct ""
             (Re.replace_g re_bar ""
                (Re.replace_g re_plus "-and-"
                   (Re.replace_g re_amp ""
                      (Re.replace_g re_amp_spaced "-and-" cleanName))))))).

Ltac strategies_in H :=
  repeat match type of H with
    | context [if ?c then _ else _] => destruct c eqn:?
    | context [match ?o with Some _ => _ | None => _ end] => destruct o eqn:?
    end.

(** X7. The normalized name, the normalized name without its hyphens and
    the first word of the name, if it has two characters at least, are
    candidates, unless they are empty. *)
Theorem name_forms_are_candidates (URL_hostname : string -> option string)
    (firm : firm_record) :
  let cleanName := Js.trim (Js.toLowerCase (name firm)) in
  let normalized := normalized_name cleanName in
  let firstWord := Re.split_head re_delims cleanName in
  (normalized ≠ "" → normalized ∈ generateSlugCandidates URL_hostname firm)
  ∧ (Re.replace_g re_hyphen "" normalized ≠ "" →
     Re.replace_g re_hyphen "" normalized
     ∈ generateSlugCandidates URL_hostname firm)
  ∧ (1 < String.length firstWord →
     firstWord ∈ generateSlugCandidates URL_hostname firm).
Proof.
  intros cleanName normalized firstWord. subst normalized firstWord cleanName.
  unfold normalized_name, generateSlugCandidates. cbv zeta.
  set (cleanName := Js.trim _).
  set (normalized := Re.replace_g re_edge_hyphens "" _).
  set (firstWord := Re.split_head re_delims cleanName).
  clearbody normalized firstWord. clearbody cleanName.
  split_and!.
  - intros Hne. apply elem_of_finish. split; [done|].
    strategies; rewrite !elem_of_set_add; auto 10.
  - intros Hne. apply elem_of_finish. split; [done|].
    strategies; rewrite !elem_of_set_add; auto 10.
  - intros Hlen.
    assert (Hword : firstWord ≠ "").
    { intros ->. cbn [String.length] in Hlen. lia. }
    apply elem_of_finish. split; [done|].
    assert (negb (String.eqb firstWord "") && (1 <? String.length firstWord) = true)
      as ->.
    { apply andb_true_intro. split; [|by apply Nat.ltb_lt].
      by apply negb_true_iff, String.eqb_neq. }
    rewrite !elem_of_set_add. auto.
Qed.

Lemma name_forms_are_candidates_witness :
  "foo-and-bar-architects-fba"
  ∈ generateSlugCandidates (λ _, None) DiscovererFacts.foo_bar
  ∧ "foo" ∈ generateSlugCandidates (λ _, None) DiscovererFacts.foo_bar.
Proof.
  destruct (name_forms_are_candidates (λ _, None) DiscovererFacts.foo_bar)
    as (H3 & _ & H5).
  assert (Hn : normalized_name (Js.trim (Js.toLowerCase (name DiscovererFacts.foo_bar)))
               = "foo-and-bar-architects-fba") by (vm_compute; reflexivity).
  assert (Hw : Re.split_head re_delims
                 (Js.trim (Js.toLowerCase (name DiscovererFacts.foo_bar)))
               = "foo") by (vm_compute; reflexivity).
  rewrite Hn in H3. rewrite Hw in H5.
  split; [by apply H3 | apply H5; cbn [String.length]; lia].
Defined.

(** X8. Every candidate is made by one of the strategies: it is the
    normalized name, the normalized name without its hyphens, the first
    word, the name without its suffix, the acronym, or the first label of
    the host name of the website. *)
Theorem candidate_origin (URL_hostname : string -> option string)
    (firm : firm_record) (c : string) :
  let cleanName := Js.trim (Js.toLowerCase (name firm)) in
  c ∈ generateSlugCandidates URL_hostname firm →
  c ≠ ""
  ∧ (c = normalized_name cleanName
     ∨ c = Re.replace_g re_hyphen "" (normalized_name cleanName)
     ∨ c = Re.split_head re_delims cleanName
     ∨ (∃ suffix,
          List.find (Js.endsWith cleanName) suffixes = Some suffix
          ∧ c = Js.trim (Js.take (String.length cleanName - String.length suffix)
                           cleanName))
     ∨ (∃ group,
          Re.match1 re_acronym (name firm) = Some group
          ∧ c = Re.replace_g re_spaces "" (Js.toLowerCase group))
     ∨ (∃ w hostname,
          website firm = Some w
          ∧ URL_hostname w = Some hostname
          ∧ c = Js.toLowerCase
                  (Re.split_head (Re.Lit ".")
                     (Re.replace (Re.Lit "www.") "" hostname)))).
Proof.
  intros cleanName. subst cleanName.
  unfold normalized_name, generateSlugCandidates. cbv zeta.
  rewrite !ReLaws.replace_g_Lit_id.
  set (cleanName := Js.trim _).
  set (normalized := Re.replace_g re_edge_hyphens "" _).
  set (nohyphen := Re.replace_g re_hyphen "" normalized).
  set (firstWord := Re.split_head re_delims cleanName).
  clearbody nohyphen. clearbody firstWord. clearbody normalized.
  clearbody cleanName.
  intros [Hne Hin]%elem_of_finish. split; [done|].
  destruct (website firm) as [w|] eqn:Hw;
    destruct (List.find _ suffixes) as [suffix|] eqn:Hs;
    destruct (Re.match1 re_acronym (name firm)) as [group|] eqn:Hg;
    unfold Js.truthy in Hin;
    try change (default "" (Some w)) with w in Hin;
    strategies_in Hin;
    rewrite ?elem_of_set_add in Hin;
    destruct_or?; try (by apply elem_of_nil in Hin); subst c; eauto 15;
    match goal with
    | H : negb (String.eqb ?x ?x) = true |- _ =>
        by rewrite String.eqb_refl in H
    end.
Qed.

Lemma candidate_origin_witness :
  "fba" ∈ generateSlugCandidates (λ _, None) DiscovererFacts.foo_bar
  ∧ "fba" ≠ "".
Proof.
  assert (Hin : "fba" ∈ generateSlugCandidates (λ _, None) DiscovererFacts.foo_bar).
  { assert (generateSlugCandidates (λ _, None) DiscovererFacts.foo_bar
            = ["fba"; "foo"; "fooandbararchitectsfba"; "foo-and-bar-architects-fba"])
      as -> by (vm_compute; reflexivity).
    left. }
  split; [exact Hin|].
  exact (proj1 (candidate_origin (λ _, None) DiscovererFacts.foo_bar "fba" Hin)).
Defined.
(** What [processFirm] does to a firm. *)

Lemma set_slugs_commute a b firm :
  set_lever_slug a (set_greenhouse_slug b firm)
  = set_greenhouse_slug b (set_lever_slug a firm).
Proof. reflexivity. Qed.

(** The firm after the slugs of the hits, if any, are recorded. *)
Definition record_hits (gh lv : option string) (firm : firm_record) : firm_record :=
  let firm :=
    match gh with
    | Some c => set_greenhouse_slug c firm
    | None => firm
    end in
  match lv with
  | Some c => set_lever_slug c firm
  | None => firm
  end.

Definition hit (o : option string) : bool :=
  match o with
  | Some _ => true
  | None => false
  end.

Section Firm.

Variable JSON_parse : string -> option json.
Variable http_get : string -> outcome.
Variable URL_hostname : string -> option string.

Definition onGreenhouse (c : string) : bool := found (probeGreenhouse JSON_parse http_get c).
Definition onLever (c : string) : bool := found (probeLever JSON_parse http_get c).

(** The loop looks for the first candidate of each provider on its own. *)
Lemma try_candidates_find candidates firm foundGreenhouse foundLever :
  try_candidates JSON_parse http_get candidates firm foundGreenhouse foundLever
  = (record_hits
       (if foundGreenhouse then None else List.find onGreenhouse candidates)
       (if foundLever then None else List.find onLever candidates) firm,
     foundGreenhouse || hit (List.find onGreenhouse candidates),
     foundLever || hit (List.find onLever candidates)).
Proof.
  revert firm foundGreenhouse foundLever.
  induction candidates as [|c rest IH]; intros firm fg fl.
  { simpl. destruct fg, fl; reflexivity. }
  simpl. fold (onGreenhouse c) (onLever c).
  destruct fg, fl, (onGreenhouse c), (onLever c); simpl; rewrite ?IH; simpl;
    try reflexivity;
    destruct (List.find onGreenhouse rest), (List.find onLever rest);
    reflexivity.
Qed.

Lemma processFirm_find firm index :
  let candidates := generateSlugCandidates URL_hostname firm in
  let gh := List.find onGreenhouse candidates in
  let lv := List.find onLever candidates in
  processFirm JSON_parse http_get URL_hostname firm index
  = (match gh, lv, candidates with
     | None, None, first :: _ => set_greenhouse_slug first firm
     | _, _, _ => record_hits gh lv firm
     end,
     Matches (hit gh) (hit lv)).
Proof.
  intros candidates gh lv. unfold processFirm. fold candidates.
  rewrite try_candidates_find. fold gh lv. simpl.
  destruct gh, lv, candidates; reflexivity.
Qed.

End Firm.

(** The candidates depend on the name and the website only. *)
Lemma candidates_of_name_and_website URL_hostname firm firm' :
  name firm' = name firm →
  website firm' = website firm →
  generateSlugCandidates URL_hostname firm'
  = generateSlugCandidates URL_hostname firm.
Proof.
  intros Hname Hsite. unfold generateSlugCandidates. cbv zeta.
  by rewrite Hname, Hsite.
Qed.

(** X9. [processFirm] records for each provider the first candidate, in
    the order of the list, that the provider knows; the two searches do
    not depend on each other. The result tells for each provider whether
    there is such a candidate. A provider without one keeps the slug it
    had, but that the first candidate of the list becomes the Greenhouse
    slug when neither provider knows any. *)
Theorem processFirm_records_first_hits (JSON_parse : string -> option json)
    (http_get : string -> outcome) (URL_hostname : string -> option string)
    (firm : firm_record) (index : nat) :
  let candidates := generateSlugCandidates URL_hostname firm in
  let gh := List.find (λ c, found (probeGreenhouse JSON_parse http_get c)) candidates in
  let lv := List.find (λ c, found (probeLever JSON_parse http_get c)) candidates in
  let r := processFirm JSON_parse http_get URL_hostname firm index in
  greenhouse (snd r) = hit gh
  ∧ lever (snd r) = hit lv
  ∧ lever_slug (fst r)
    = match lv with
      | Some c => Some c
      | None => lever_slug firm
      end
  ∧ greenhouse_slug (fst r)
    = match gh, lv, candidates with
      | Some c, _, _ => Some c
      | None, None, first :: _ => Some first
      | None, _, _ => greenhouse_slug firm
      end.
Proof.
  intros candidates gh lv r. unfold r. rewrite processFirm_find.
  fold candidates. subst gh lv. clearbody candidates.
  change (λ c, found (probeGreenhouse JSON_parse http_get c))
    with (onGreenhouse JSON_parse http_get).
  change (λ c, found (probeLever JSON_parse http_get c))
    with (onLever JSON_parse http_get).
  destruct (List.find (onGreenhouse _ _) _), (List.find (onLever _ _) _), candidates;
    done.
Qed.

(** X10. [processFirm] changes no field of the firm but the two slugs. *)
Theorem processFirm_keeps_other_fields (JSON_parse : string -> option json)
    (http_get : string -> outcome) (URL_hostname : string -> option string)
    (firm : firm_record) (index : nat) :
  let firm' := fst (processFirm JSON_parse http_get URL_hostname firm index) in
  id firm' = id firm ∧ name firm' = name firm ∧ city firm' = city firm
  ∧ state firm' = state firm ∧ lat firm' = lat firm ∧ lng firm' = lng firm
  ∧ size firm' = size firm ∧ discipline firm' = discipline firm
  ∧ specialties firm' = specialties firm ∧ jobs firm' = jobs firm
  ∧ website firm' = website firm ∧ about firm' = about firm.
Proof.
  intros firm'. unfold firm'. rewrite processFirm_find. simpl.
  unfold record_hits. repeat case_match; simpl; done.
Qed.

Lemma processFirm_again JSON_parse http_get URL_hostname firm index index' :
  processFirm JSON_parse http_get URL_hostname
    (fst (processFirm JSON_parse http_get URL_hostname firm index)) index'
  = processFirm JSON_parse http_get URL_hostname firm index.
Proof.
  rewrite (processFirm_find _ _ _ (fst _)).
  assert (generateSlugCandidates URL_hostname
            (fst (processFirm JSON_parse http_get URL_hostname firm index))
          = generateSlugCandidates URL_hostname firm) as ->.
  { rewrite processFirm_find. simpl.
    unfold record_hits.
    apply candidates_of_name_and_website; repeat case_match; reflexivity. }
  rewrite !processFirm_find. simpl. unfold record_hits.
  repeat case_match; reflexivity.
Qed.

(** X11. Processing a firm a second time, with the same answers of the
    network, changes nothing and gives the same result. *)
Theorem processFirm_idempotent (JSON_parse : string -> option json)
    (http_get : string -> outcome) (URL_hostname : string -> option string)
    (firm : firm_record) (index index' : nat) :
  processFirm JSON_parse http_get URL_hostname
    (fst (processFirm JSON_parse http_get URL_hostname firm index)) index'
  = processFirm JSON_parse http_get URL_hostname firm index.
Proof. apply processFirm_again. Qed.

Lemma length_store (i : nat) (l : list (nat * firm_record)) (data : list firm_record) :
  length (foldr (λ '(idx, firm) data, <[i + idx := firm]> data) data l)
  = length data.
Proof.
  induction l as [|[idx f] l IH]; simpl; [done|]. by rewrite length_insert.
Qed.

(** What a batch writes back, at a position of the batch. *)
Lemma lookup_store_batch_in i batch data k firm :
  batch !! k = Some firm →
  i + k < length data →
  store_batch i batch data !! (i + k) = Some firm.
Proof.
  unfold store_batch.
  change (imap pair batch) with (imap (λ k, pair (0 + k)) batch).
  replace (i + k) with (i + (0 + k)) by lia.
  generalize 0 as n. revert k.
  induction batch as [|b rest IH]; intros k n Hk Hlt; [done|].
  simpl. destruct k as [|k]; simpl in Hk.
  - injection Hk as ->. rewrite list_lookup_insert_eq; [done|].
    rewrite length_store. lia.
  - rewrite list_lookup_insert_ne by lia.
    replace (i + (n + S k)) with (i + (S n + k)) by lia.
    rewrite <- (IH k (S n) Hk) by lia. f_equal. f_equal.
    apply imap_ext. intros j x _. simpl. f_equal. lia.
Qed.

Section Run.

Variable JSON_parse : string -> option json.
Variable URL_hostname : string -> option string.
Variable network : nat -> string -> outcome.

(** The firm at the position [j] of the database after [processFirm]. *)
Definition processed (j : nat) (firm : firm_record) : firm_record :=
  fst (processFirm JSON_parse (network j) URL_hostname firm j).

Lemma store_batch_step i firms j :
  let batchResults :=
    imap (λ idx firm,
            processFirm JSON_parse (network (i + idx)) URL_hostname firm (i + idx))
      (slice i (i + CONCURRENCY) firms) in
  (if decide (j < i + CONCURRENCY)
   then store_batch i (fst <$> batchResults) firms !! j
   else processed j <$> store_batch i (fst <$> batchResults) firms !! j)
  = if decide (j < i) then firms !! j else processed j <$> firms !! j.
Proof.
  intros batchResults.
  assert (Hlen : length (fst <$> batchResults) ≤ CONCURRENCY).
  { unfold batchResults, slice.
    rewrite length_fmap, length_imap, length_take. lia. }
  destruct (decide (j < i)) as [Hji|Hji].
  { rewrite decide_True by lia. apply DiscovererFacts.lookup_store_batch. lia. }
  destruct (decide (j < i + CONCURRENCY)) as [Hj5|Hj5].
  2:{ f_equal. apply DiscovererFacts.lookup_store_batch. lia. }
  destruct (firms !! j) as [firm|] eqn:Hj.
  2:{ apply lookup_ge_None in Hj. apply lookup_ge_None.
      rewrite length_store_batch. lia. }
  replace j with (i + (j - i)) at 1 by lia.
  apply lookup_store_batch_in.
  2:{ apply lookup_lt_Some in Hj. lia. }
  unfold batchResults, slice. rewrite list_lookup_fmap, list_lookup_imap.
  rewrite lookup_take_lt by lia. rewrite lookup_drop.
  replace (i + (j - i)) with j by lia. rewrite Hj. reflexivity.
Qed.

Lemma batches_lookup i firms results j :
  fst (batches JSON_parse URL_hostname network i firms results) !! j
  = if decide (j < i) then firms !! j else processed j <$> firms !! j.
Proof.
  funelim (batches JSON_parse URL_hostname network i firms results).
  - match goal with
    | IH : ∀ j, fst (batches _ _ _ _ _ _) !! j = _ |- _ => rewrite IH
    end.
    apply store_batch_step.
  - destruct (decide (j < i)); [done|]. simpl.
    rewrite lookup_ge_None_2 by lia. reflexivity.
Qed.

(** The loop leaves every firm as [processFirm] leaves it. *)
Lemma batches_data firms results :
  fst (batches JSON_parse URL_hostname network 0 firms results)
  = imap processed firms.
Proof.
  apply list_eq. intros j. rewrite batches_lookup, list_lookup_imap.
  by rewrite decide_False by lia.
Qed.

Variable read_firms : string -> option (list firm_record).
Variable write_firms : list firm_record -> string.

Lemma main_eq (files : gmap string string) text data :
  files !! DATA_FILE = Some text →
  read_firms text = Some data →
  main JSON_parse URL_hostname network read_firms write_firms files
  = Some (<[DATA_FILE := write_firms (imap processed data)]> files,
          foldl count (Tally 0 0 0)
            (DiscovererFacts.outcomes JSON_parse URL_hostname network 0 data)).
Proof.
  intros Hfile Hread. unfold main. rewrite Hfile, Hread.
  pose proof (batches_data data (Tally 0 0 0)) as Hdata.
  pose proof (DiscovererFacts.batches_counts JSON_parse URL_hostname network
                0 data (Tally 0 0 0)) as Hcount.
  destruct (batches _ _ _ 0 data _) as [data' results'].
  simpl in Hdata, Hcount. rewrite drop_0 in Hcount. by subst.
Qed.

Lemma processed_processed data :
  imap processed (imap processed data) = imap processed data.
Proof.
  apply list_eq. intros j. rewrite !list_lookup_imap.
  destruct (data !! j) as [firm|]; [|reflexivity].
  change (Some (processed j (processed j firm)) = Some (processed j firm)).
  unfold processed. rewrite processFirm_again. reflexivity.
Qed.

Lemma outcomes_processed data :
  DiscovererFacts.outcomes JSON_parse URL_hostname network 0 (imap processed data)
  = DiscovererFacts.outcomes JSON_parse URL_hostname network 0 data.
Proof.
  unfold DiscovererFacts.outcomes.
  apply list_eq. intros j. rewrite !list_lookup_imap.
  destruct (data !! j) as [firm|]; [|reflexivity].
  change (Some (snd (processFirm JSON_parse (network (0 + j)) URL_hostname
                       (processed j firm) (0 + j)))
          = Some (snd (processFirm JSON_parse (network (0 + j)) URL_hostname
                         firm (0 + j)))).
  unfold processed. change (0 + j) with j. rewrite processFirm_again. reflexivity.
Qed.

End Run.

(** X12. A run of the discoverer that reaches its end writes the data
    file only, and writes there the firms of the database in their order,
    each as [processFirm] leaves it, given its own position and the
    answers of the network to its own requests. *)
Theorem main_writes_processed_firms (JSON_parse : string -> option json)
    (URL_hostname : string -> option string) (network : nat -> string -> outcome)
    (read_firms : string -> option (list firm_record))
    (write_firms : list firm_record -> string)
    (files files' : gmap string string) (results : tally) :
  main JSON_parse URL_hostname network read_firms write_firms files
  = Some (files', results) →
  ∃ data,
    (files !! DATA_FILE) ≫= read_firms = Some data
    ∧ files'
      = <[DATA_FILE :=
            write_firms
              (imap (λ i firm,
                       fst (processFirm JSON_parse (network i) URL_hostname firm i))
                 data)]> files.
Proof.
  intros Hmain.
  destruct (files !! DATA_FILE) as [text|] eqn:Hfile;
    [|by unfold main in Hmain; rewrite Hfile in Hmain].
  destruct (read_firms text) as [data|] eqn:Hread;
    [|by unfold main in Hmain; rewrite Hfile, Hread in Hmain].
  rewrite (main_eq _ _ _ _ _ _ _ _ Hfile Hread) in Hmain.
  injection Hmain as <- _. by exists data.
Qed.

Lemma main_writes_processed_firms_witness :
  let JSON_parse := λ _ : string, @None json in
  let URL_hostname := λ _ : string, @None string in
  let network := λ (_ : nat) (_ : string), TimedOut in
  let read_firms := λ _ : string, Some [DiscovererFacts.foo_bar] in
  let write_firms :=
    λ data : list firm_record,
      String.concat "," (default "" ∘ greenhouse_slug <$> data) in
  let files : gmap string string := {[DATA_FILE := ""]} in
  main JSON_parse URL_hostname network read_firms write_firms files
  = Some ({[DATA_FILE := "fba"]}, Tally 0 0 1)
  ∧ ∃ data,
      (files !! DATA_FILE) ≫= read_firms = Some data
      ∧ ({[DATA_FILE := "fba"]} : gmap string string)
        = <[DATA_FILE :=
              write_firms
                (imap (λ i firm,
                         fst (processFirm JSON_parse (network i) URL_hostname firm i))
                   data)]> files.
Proof.
  intros JSON_parse URL_hostname network read_firms write_firms files.
  assert (Hmain : main JSON_parse URL_hostname network read_firms write_firms files
                  = Some ({[DATA_FILE := "fba"]}, Tally 0 0 1))
    by (vm_compute; reflexivity).
  split; [exact Hmain|].
  exact (main_writes_processed_firms _ _ _ _ _ _ _ _ Hmain).
Defined.

(** X13. A second run of the discoverer on the files that a first run has
    left, with the same answers of the network, leaves the files as they
    are and prints the same counts, provided that the data file, as the
    first run has written it, reads back as the firms written. *)
Theorem main_idempotent (JSON_parse : string -> option json)
    (URL_hostname : string -> option string) (network : nat -> string -> outcome)
    (read_firms : string -> option (list firm_record))
    (write_firms : list firm_record -> string)
    (files : gmap string string) (data : list firm_record) :
  let data' :=
    imap (λ i firm, fst (processFirm JSON_parse (network i) URL_hostname firm i))
      data in
  (files !! DATA_FILE) ≫= read_firms = Some data →
  read_firms (write_firms data') = Some data' →
  ∃ files' results,
    main JSON_parse URL_hostname network read_firms write_firms files
    = Some (files', results)
    ∧ main JSON_parse URL_hostname network read_firms write_firms files'
      = Some (files', results).
Proof.
  intros data' Hdata Hback.
  destruct (files !! DATA_FILE) as [text|] eqn:Hfile; [|done]. simpl in Hdata.
  change data' with (imap (processed JSON_parse URL_hostname network) data)
    in Hback.
  clear data'.
  eexists _, _. split; [by eapply main_eq|].
  erewrite main_eq; [|apply lookup_insert_eq|apply Hback].
  by rewrite processed_processed, outcomes_processed, insert_insert_eq.
Qed.

Lemma main_idempotent_witness :
  let JSON_parse := λ _ : string, @None json in
  let URL_hostname := λ _ : string, @None string in
  let network := λ (_ : nat) (_ : string), TimedOut in
  let read_firms :=
    λ text : string,
      if String.eqb text "" then Some [DiscovererFacts.foo_bar]
      else Some [set_greenhouse_slug text DiscovererFacts.foo_bar] in
  let write_firms :=
    λ data : list firm_record,
      String.concat "," (default "" ∘ greenhouse_slug <$> data) in
  let files : gmap string string := {[DATA_FILE := ""]} in
  (files !! DATA_FILE) ≫= read_firms = Some [DiscovererFacts.foo_bar]
  ∧ ∃ files' results,
      main JSON_parse URL_hostname network read_firms write_firms files
      = Some (files', results)
      ∧ main JSON_parse URL_hostname network read_firms write_firms files'
        = Some (files', results).
Proof.
  intros JSON_parse URL_hostname network read_firms write_firms files.
  split; [reflexivity|].
  apply (main_idempotent JSON_parse URL_hostname network read_firms write_firms
           files [DiscovererFacts.foo_bar]); vm_compute; reflexivity.
Defined.
End DiscovererLaws.

(** * More on the job fetcher *)

Module FetcherLaws.

Import Fetcher.

(** ** The age of a posting *)

(** X14. For a date that parses and is not in the future, [timeAgo] gives
    one of four fixed texts or a count: 2 to 6 days, 2 to 4 weeks, or at
    least 2 months. *)
Theorem timeAgo_of_past_date (P : platform) (now then_ : Z) (dateStr : string) :
  Date_parse P dateStr = Some then_ →
  (then_ ≤ now)%Z →
  timeAgo P now dateStr ∈ ["Today"; "1 day ago"; "1 week ago"; "1 month ago"]
  ∨ ∃ n : Z,
      ((2 ≤ n ≤ 6)%Z ∧ timeAgo P now dateStr = Js.string_of_Z n ++ " days ago")
      ∨ ((2 ≤ n ≤ 4)%Z ∧ timeAgo P now dateStr = Js.string_of_Z n ++ " weeks ago")
      ∨ ((2 ≤ n)%Z ∧ timeAgo P now dateStr = Js.string_of_Z n ++ " months ago").
Proof.
  intros Hparse Hpast. unfold timeAgo. rewrite Hparse.
  set (days := ((now - then_) / 86400000)%Z).
  assert (0 ≤ days)%Z by (apply Z.div_pos; lia).
  unfold ago.
  destruct (Z.eqb_spec days 0); [left; set_solver|].
  destruct (Z.eqb_spec days 1); [left; set_solver|].
  destruct (Z.ltb_spec days 7).
  { right. exists days. left. split; [lia|done]. }
  destruct (Z.ltb_spec days 14); [left; set_solver|].
  destruct (Z.ltb_spec days 30).
  { right. exists (days / 7)%Z. right. left. split; [|done].
    split; [apply Z.div_le_lower_bound; lia|].
    apply Z.lt_succ_r, Z.div_lt_upper_bound; lia. }
  destruct (Z.ltb_spec days 60); [left; set_solver|].
  right. exists (days / 30)%Z. right. right. split; [|done].
  apply Z.div_le_lower_bound; lia.
Qed.

Lemma timeAgo_of_past_date_witness :
  let P := Platform (λ _, Some 0%Z) (λ _, None) (λ _ _, "") (λ _, None) in
  timeAgo P 1900800000 "1970-01-01" = "3 weeks ago"
  ∧ (timeAgo P 1900800000 "1970-01-01"
       ∈ ["Today"; "1 day ago"; "1 week ago"; "1 month ago"]
     ∨ ∃ n : Z,
         ((2 ≤ n ≤ 6)%Z
          ∧ timeAgo P 1900800000 "1970-01-01" = Js.string_of_Z n ++ " days ago")
         ∨ ((2 ≤ n ≤ 4)%Z
            ∧ timeAgo P 1900800000 "1970-01-01" = Js.string_of_Z n ++ " weeks ago")
         ∨ ((2 ≤ n)%Z
            ∧ timeAgo P 1900800000 "1970-01-01"
              = Js.string_of_Z n ++ " months ago")).
Proof.
  intros P. split; [reflexivity|].
  apply (timeAgo_of_past_date P 1900800000 0 "1970-01-01"); [reflexivity|lia].
Defined.

(** ** Names under [normalize] *)

Definition alnum (c : ascii) : bool := Js.is_lower c || Js.is_digit c.

Lemma keep_ext p q s : (∀ c, p c = q c) → ReLaws.keep p s = ReLaws.keep q s.
Proof.
  intros H. induction s as [|c s IH]; simpl; [done|]. by rewrite H, IH.
Qed.

Lemma normalize_keep name :
  normalize name
  = Re.replace_g re_firm_suffix ""
      (ReLaws.keep alnum (Js.toLowerCase (Js.or_else name ""))).
Proof.
  unfold normalize, re_not_alnum. rewrite ReLaws.replace_g_Chr.
  f_equal. apply keep_ext. intros c. apply negb_involutive.
Qed.

(** X15. A normalized name has small letters and digits only. *)
Theorem normalize_alnum (name : option string) :
  ReLaws.all_chars alnum (normalize name) = true.
Proof.
  rewrite normalize_keep. unfold Re.replace_g.
  apply ReLaws.all_chars_replace_from, ReLaws.all_chars_keep.
Qed.

(** X16. [normalize] looks at the letters and digits of a name only, and
    not at their case: names that agree on them have the same normal
    form. *)
Theorem normalize_ignores_case_and_punctuation (name name' : string) :
  ReLaws.keep alnum (Js.toLowerCase name)
  = ReLaws.keep alnum (Js.toLowerCase name') →
  normalize (Some name) = normalize (Some name').
Proof.
  intros H. rewrite !normalize_keep.
  assert (Hor : ∀ s, Js.toLowerCase (Js.or_else (Some s) "") = Js.toLowerCase s)
    by (by intros [|c s]).
  rewrite !Hor, H. reflexivity.
Qed.

Lemma normalize_ignores_case_and_punctuation_witness :
  normalize (Some "Smith & Jones, LLC") = normalize (Some "smith-jones llc")
  ∧ normalize (Some "Smith & Jones, LLC") = "smithjones".
Proof.
  split; [|vm_compute; reflexivity].
  apply (normalize_ignores_case_and_punctuation
           "Smith & Jones, LLC" "smith-jones llc").
  vm_compute; reflexivity.
Defined.

(** ** Results of the aggregator and firms *)

Lemma firmIndex_snoc firms f :
  firmIndex (firms ++ [f])
  = <[normalize (Some (name f)) := length firms]> (firmIndex firms).
Proof.
  unfold firmIndex. rewrite imap_app, foldl_app. simpl.
  by rewrite Nat.add_0_r.
Qed.

(** The index gives for a key the last firm whose name has this normal
    form. *)
Lemma firmIndex_Some firms key i :
  firmIndex firms !! key = Some i →
  ∃ f, firms !! i = Some f
       ∧ normalize (Some (name f)) = key
       ∧ ∀ i' f', i < i' → firms !! i' = Some f' →
           normalize (Some (name f')) ≠ key.
Proof.
  revert i. induction firms as [|f firms IH] using rev_ind; intros i.
  { unfold firmIndex. simpl. by rewrite lookup_empty. }
  rewrite firmIndex_snoc.
  destruct (decide (normalize (Some (name f)) = key)) as [Hkey|Hkey].
  - rewrite Hkey, lookup_insert_eq. intros [= <-]. exists f. split_and!.
    + by rewrite lookup_app_r, Nat.sub_diag by lia.
    + done.
    + intros i' f' Hlt Hi'. apply lookup_lt_Some in Hi'.
      rewrite length_app in Hi'. simpl in Hi'. lia.
  - rewrite lookup_insert_ne by done. intros Hi.
    destruct (IH i Hi) as (f0 & Hf0 & Hn & Hlast).
    exists f0. split_and!.
    + rewrite lookup_app_l; [done|]. by apply lookup_lt_Some in Hf0.
    + done.
    + intros i' f' Hlt Hi'.
      destruct (decide (i' < length firms)) as [Hin|Hout].
      * rewrite lookup_app_l in Hi' by done. by apply (Hlast i' f').
      * rewrite lookup_app_r in Hi' by lia.
        destruct (i' - length firms) as [|n]; simpl in Hi'; [|done].
        by injection Hi' as <-.
Qed.

Lemma firmIndex_None firms key :
  firmIndex firms !! key = None →
  ∀ f, f ∈ firms → normalize (Some (name f)) ≠ key.
Proof.
  induction firms as [|f firms IH] using rev_ind; intros Hnone f0 Hin.
  { by apply elem_of_nil in Hin. }
  rewrite firmIndex_snoc in Hnone.
  apply lookup_insert_None in Hnone as [Hnone Hkey].
  apply elem_of_app in Hin as [Hin|Hin].
  - by apply IH.
  - apply list_elem_of_singleton in Hin as ->. done.
Qed.

Section Matching.

Variable P : platform.
Variable w : world.

(** Where the [k]-th result goes. *)
Definition key_of (j : JSearch.result) : string :=
  normalize (Some (Js.or_else (JSearch.employer_name j) "")).

Definition matched_of (index : gmap string nat) (kj : nat * JSearch.result)
    : option (nat * job_record) :=
  firm ← index !! key_of (snd kj);
  Some (firm, jsearch_job P (clock w AtJSearch (fst kj)) (snd kj)).

Definition unmatched_of (index : gmap string nat) (kj : nat * JSearch.result)
    : option discovery :=
  match index !! key_of (snd kj) with
  | Some _ => None
  | None =>
      Some (Discovery (Js.or_else (JSearch.employer_name (snd kj)) "")
              (Js.or_else (JSearch.job_city (snd kj)) "")
              (Js.or_else (JSearch.job_state (snd kj)) "")
              (Js.or_else (JSearch.job_country (snd kj)) "")
              (jsearch_job P (clock w AtJSearch (fst kj)) (snd kj)))
  end.

Lemma foldl_match_result index acc items :
  foldl (match_result P w index) acc items
  = ((fst acc ++ omap (matched_of index) items)%list,
     (snd acc ++ omap (unmatched_of index) items)%list).
Proof.
  revert acc. induction items as [|[k j] items IH]; intros [matched unmatched].
  { simpl. by rewrite !app_nil_r. }
  cbn [foldl]. rewrite IH. unfold match_result.
  cbn [omap list_omap]. unfold matched_of at 2, unmatched_of at 2, key_of.
  cbn [fst snd].
  destruct (index !! _); cbn [mbind option_bind fst snd];
    by rewrite <- ?app_assoc.
Qed.

Lemma matchJSearchToFirms_omap jsearchJobs firms :
  matchJSearchToFirms P w jsearchJobs firms
  = (omap (matched_of (firmIndex firms)) (imap pair jsearchJobs),
     omap (unmatched_of (firmIndex firms)) (imap pair jsearchJobs)).
Proof. unfold matchJSearchToFirms. by rewrite foldl_match_result. Qed.

Lemma length_matched_unmatched index (items : list (nat * JSearch.result)) :
  length (omap (matched_of index) items) + length (omap (unmatched_of index) items)
  = length items.
Proof.
  induction items as [|kj items IH]; [done|].
  cbn [omap list_omap]. unfold matched_of at 1, unmatched_of at 1.
  destruct (index !! _); cbn [mbind option_bind length]; lia.
Qed.

End Matching.

(** X17. [matchJSearchToFirms] puts every result of the aggregator on
    one of its two lists, and on one only. *)
Theorem matchJSearchToFirms_partition (P : platform) (w : world)
    (jsearchJobs : list JSearch.result) (firms : list firm_record) :
  length (fst (matchJSearchToFirms P w jsearchJobs firms))
  + length (snd (matchJSearchToFirms P w jsearchJobs firms))
  = length jsearchJobs.
Proof.
  rewrite matchJSearchToFirms_omap. cbn [fst snd].
  by rewrite length_matched_unmatched, length_imap.
Qed.

Lemma elem_of_matched P w jsearchJobs firms firm job :
  (firm, job) ∈ fst (matchJSearchToFirms P w jsearchJobs firms) →
  ∃ k j, jsearchJobs !! k = Some j
         ∧ job = jsearch_job P (clock w AtJSearch k) j
         ∧ firmIndex firms !! key_of j = Some firm.
Proof.
  rewrite matchJSearchToFirms_omap. cbn [fst].
  intros ([k j] & Hin & Hm)%list_elem_of_omap.
  apply elem_of_lookup_imap in Hin as (k' & j' & [= -> ->] & Hk).
  unfold matched_of in Hm. cbn [fst snd] in Hm.
  destruct (firmIndex firms !! key_of j') as [i|] eqn:Hi; [|done].
  injection Hm as <- <-. by exists k', j'.
Qed.

(** X18. A matched pair has a firm of the database and a result of the
    aggregator whose employer has the normal form of the name of the
    firm; of the firms with this normal form it is the last one. *)
Theorem matched_firm_has_the_name (P : platform) (w : world)
    (jsearchJobs : list JSearch.result) (firms : list firm_record)
    (firm : nat) (job : job_record) :
  (firm, job) ∈ fst (matchJSearchToFirms P w jsearchJobs firms) →
  ∃ k j f,
    jsearchJobs !! k = Some j
    ∧ job = jsearch_job P (clock w AtJSearch k) j
    ∧ firms !! firm = Some f
    ∧ normalize (Some (name f))
      = normalize (Some (Js.or_else (JSearch.employer_name j) ""))
    ∧ ∀ i' f', firm < i' → firms !! i' = Some f' →
        normalize (Some (name f'))
        ≠ normalize (Some (Js.or_else (JSearch.employer_name j) "")).
Proof.
  intros (k & j & Hk & Hjob & Hi)%elem_of_matched.
  apply firmIndex_Some in Hi as (f & Hf & Hname & Hlast).
  by exists k, j, f.
Qed.

Lemma matched_firm_has_the_name_witness :
  let P := FetcherFacts.demo_platform in
  let w := FetcherFacts.demo_world 0 (Some "key") in
  let result :=
    JSearch.Result (Some "ACME Architects") (Some "Designer") None None None
      None None None None None in
  let job := Job "Designer" (JStr "Full-time") "See listing" "Recently" "" in
  (0, job) ∈ fst (matchJSearchToFirms P w [result] [FetcherFacts.acme])
  ∧ ∃ k j f,
      [result] !! k = Some j
      ∧ [FetcherFacts.acme] !! 0 = Some f
      ∧ normalize (Some (name f))
        = normalize (Some (Js.or_else (JSearch.employer_name j) "")).
Proof.
  intros P w result job.
  assert (Hin : (0, job) ∈ fst (matchJSearchToFirms P w [result] [FetcherFacts.acme])).
  { assert (fst (matchJSearchToFirms P w [result] [FetcherFacts.acme]) = [(0, job)])
      as -> by (vm_compute; reflexivity).
    left. }
  split; [exact Hin|].
  destruct (matched_firm_has_the_name P w [result] [FetcherFacts.acme] 0 job Hin)
    as (k & j & f & Hk & _ & Hf & Hname & _).
  by exists k, j, f.
Defined.

(** X19. An unmatched result has an employer whose normal form no firm
    of the database has. *)
Theorem unmatched_employer_is_no_firm (P : platform) (w : world)
    (jsearchJobs : list JSearch.result) (firms : list firm_record)
    (d : discovery) :
  d ∈ snd (matchJSearchToFirms P w jsearchJobs firms) →
  (∃ k j,
     jsearchJobs !! k = Some j
     ∧ employer d = Js.or_else (JSearch.employer_name j) ""
     ∧ d_job d = jsearch_job P (clock w AtJSearch k) j)
  ∧ ∀ f, f ∈ firms →
      normalize (Some (name f)) ≠ normalize (Some (employer d)).
Proof.
  rewrite matchJSearchToFirms_omap. cbn [snd].
  intros ([k j] & Hin & Hm)%list_elem_of_omap.
  apply elem_of_lookup_imap in Hin as (k' & j' & [= -> ->] & Hk).
  unfold unmatched_of in Hm. cbn [fst snd] in Hm.
  destruct (firmIndex firms !! key_of j') as [i|] eqn:Hi; [done|].
  injection Hm as <-. split; [by exists k', j'|].
  cbn [employer]. by apply firmIndex_None.
Qed.

Lemma unmatched_employer_is_no_firm_witness :
  let P := FetcherFacts.demo_platform in
  let w := FetcherFacts.demo_world 0 (Some "key") in
  let result :=
    JSearch.Result (Some "Unknown Studio") (Some "Designer") None None None
      None None None None None in
  let d :=
    Discovery "Unknown Studio" "" "" ""
      (Job "Designer" (JStr "Full-time") "See listing" "Recently" "") in
  d ∈ snd (matchJSearchToFirms P w [result] [FetcherFacts.acme])
  ∧ normalize (Some (name FetcherFacts.acme)) ≠ normalize (Some (employer d)).
Proof.
  intros P w result d.
  assert (Hin : d ∈ snd (matchJSearchToFirms P w [result] [FetcherFacts.acme])).
  { assert (snd (matchJSearchToFirms P w [result] [FetcherFacts.acme]) = [d])
      as -> by (vm_compute; reflexivity).
    left. }
  split; [exact Hin|].
  destruct (unmatched_employer_is_no_firm P w [result] [FetcherFacts.acme] d Hin)
    as [_ Hno].
  apply Hno. left.
Defined.

(** ** Adding the matched jobs *)

Lemma existsb_title (t : string) (js : list job_record) :
  existsb (λ j, String.eqb (title j) t) js = false ↔ t ∉ title <$> js.
Proof.
  induction js as [|j js IH]; [by split; [intros _ []%elem_of_nil|]|].
  cbn [existsb fmap list_fmap]. rewrite orb_false_iff, IH, not_elem_of_cons.
  destruct (String.eqb_spec (title j) t); split; intros [??]; try done;
    split; (congruence || done).
Qed.

(** The body of the loop over the matched pairs. *)
Definition add_one (firms : list firm_record) (m : nat * job_record)
    : list firm_record :=
  match firms !! fst m with
  | Some f =>
      if existsb (λ j, String.eqb (title j) (title (snd m))) (jobs f)
      then firms
      else <[fst m := push_jobs [snd m] f]> firms
  | None => firms
  end.

Lemma add_matched_foldl matched firms :
  add_matched matched firms = foldl add_one firms matched.
Proof.
  unfold add_matched. apply FetcherFacts.foldl_ext. by intros a [i job].
Qed.

Lemma add_matched_snoc matched m firms :
  add_matched (matched ++ [m]) firms = add_one (add_matched matched firms) m.
Proof. by rewrite !add_matched_foldl, foldl_app. Qed.

Lemma jobs_push_jobs more f : jobs (push_jobs more f) = (jobs f ++ more)%list.
Proof. reflexivity. Qed.

(** What the loop adds to the firm at [i]: jobs matched to it, with
    titles that differ from each other and from those it had. *)
Lemma add_matched_spec matched firms i f :
  firms !! i = Some f →
  ∃ more,
    add_matched matched firms !! i = Some (push_jobs more f)
    ∧ NoDup (title <$> more)
    ∧ ∀ j, j ∈ more → (i, j) ∈ matched ∧ title j ∉ title <$> jobs f.
Proof.
  intros Hf. induction matched as [|[i0 job] matched IH] using rev_ind.
  { exists []. split_and!.
    - by rewrite FetcherFacts.push_jobs_nil.
    - constructor.
    - by intros j ?%elem_of_nil. }
  destruct IH as (more & Hmore & Hdup & Hin).
  rewrite add_matched_snoc. unfold add_one. cbn [fst snd].
  destruct (decide (i0 = i)) as [->|Hne].
  - rewrite Hmore, jobs_push_jobs.
    destruct (existsb _ _) eqn:Hex.
    + exists more. split_and!; [done..|].
      intros j Hj. destruct (Hin j Hj). split; [|done].
      apply elem_of_app. by left.
    + apply existsb_title in Hex. rewrite fmap_app, not_elem_of_app in Hex.
      destruct Hex as [Hold Hnew].
      exists (more ++ [job])%list. split_and!.
      * rewrite list_lookup_insert_eq by (by eapply lookup_lt_Some).
        by rewrite FetcherFacts.push_jobs_push_jobs.
      * rewrite fmap_app. apply NoDup_app. split_and!; [done| |apply NoDup_singleton].
        intros t Ht Ht'%list_elem_of_singleton. by subst t.
      * intros j [Hj|Hj%list_elem_of_singleton]%elem_of_app.
        -- destruct (Hin j Hj). split; [|done]. apply elem_of_app. by left.
        -- subst j. split; [|done]. apply elem_of_app. right. left.
  - exists more. split_and!; [|done|].
    + destruct (add_matched matched firms !! i0) as [f0|]; [|done].
      destruct (existsb _ _); [done|].
      by rewrite list_lookup_insert_ne.
    + intros j Hj. destruct (Hin j Hj). split; [|done].
      apply elem_of_app. by left.
Qed.

(** A matched job is in the list of its firm at the end, or a job of the
    same title is. *)
Lemma add_matched_complete matched firms i job f' :
  (i, job) ∈ matched →
  add_matched matched firms !! i = Some f' →
  title job ∈ title <$> jobs f'.
Proof.
  intros (before & after & ->)%list_elem_of_split Hf'.
  rewrite add_matched_foldl, foldl_app in Hf'. cbn [foldl] in Hf'.
  rewrite <- !add_matched_foldl in Hf'.
  pose proof (FetcherFacts.add_matched_pushes after
                (add_one (add_matched before firms) (i, job))) as Hpush.
  destruct (Forall2_lookup_r _ _ _ _ _ Hpush Hf') as (f1 & Hf1 & more & ->).
  rewrite jobs_push_jobs, fmap_app. apply elem_of_app. left.
  unfold add_one in Hf1. cbn [fst snd] in Hf1.
  destruct (add_matched before firms !! i) as [f0|] eqn:Hf0.
  2:{ by rewrite Hf0 in Hf1. }
  destruct (existsb _ _) eqn:Hex.
  - rewrite Hf0 in Hf1. injection Hf1 as <-.
    destruct (decide (title job ∈ title <$> jobs f0)) as [|Hno]; [done|].
    apply existsb_title in Hno. congruence.
  - rewrite list_lookup_insert_eq in Hf1 by (by eapply lookup_lt_Some).
    injection Hf1 as <-. rewrite jobs_push_jobs, fmap_app.
    apply elem_of_app. right. left.
Qed.

(** X20. The loop over the matched pairs adds to a firm only jobs that
    were matched to it, none whose title the firm has already or that it
    has added before; and of every matched job the firm has the title at
    the end. *)
Theorem add_matched_avoids_duplicate_titles (matched : list (nat * job_record))
    (firms : list firm_record) (i : nat) (f : firm_record) :
  firms !! i = Some f →
  ∃ more,
    add_matched matched firms !! i = Some (push_jobs more f)
    ∧ NoDup (title <$> more)
    ∧ (∀ j, j ∈ more → (i, j) ∈ matched ∧ title j ∉ title <$> jobs f)
    ∧ ∀ job, (i, job) ∈ matched → title job ∈ title <$> jobs (push_jobs more f).
Proof.
  intros Hf. destruct (add_matched_spec matched firms i f Hf)
    as (more & Hmore & Hdup & Hin).
  exists more. split_and!; [done..|].
  intros job Hjob. by eapply add_matched_complete.
Qed.

Lemma add_matched_avoids_duplicate_titles_witness :
  let architect := Job "Architect" (JStr "Full-time") "See listing" "Today" "" in
  let designer := Job "Designer" (JStr "Contract") "See listing" "Recently" "" in
  let duplicate := Job "Architect" (JStr "Part-time") "See listing" "Recently" "" in
  let firm := set_jobs [architect] FetcherFacts.acme in
  [firm] !! 0 = Some firm
  ∧ add_matched [(0, duplicate); (0, designer); (0, designer)] [firm]
    = [push_jobs [designer] firm]
  ∧ ∃ more,
      add_matched [(0, duplicate); (0, designer); (0, designer)] [firm] !! 0
      = Some (push_jobs more firm)
      ∧ NoDup (title <$> more).
Proof.
  intros architect designer duplicate firm.
  split; [reflexivity|]. split; [vm_compute; reflexivity|].
  destruct (add_matched_avoids_duplicate_titles
              [(0, duplicate); (0, designer); (0, designer)] [firm] 0 firm
              eq_refl) as (more & Hmore & Hdup & _).
  by exists more.
Defined.

(** ** The jobs of a firm at the end of the passes *)

Lemma fst_passes P w firms :
  fst (passes P w firms)
  = add_matched
      (fst (matchJSearchToFirms P w
              (fetchJSearchJobs w (Js.or_else (JSEARCH_API_KEY w) ""))
              (FetcherFacts.provider_passes P w firms)))
      (FetcherFacts.provider_passes P w firms).
Proof.
  unfold passes, jsearch_pass. fold (FetcherFacts.provider_passes P w firms).
  destruct (fetchJSearchJobs w _) as [|r raw] eqn:Hraw.
  - by rewrite FetcherFacts.matchJSearchToFirms_nil.
  - cbn [length Nat.ltb Nat.leb]. by destruct (matchJSearchToFirms _ _ _ _).
Qed.

Lemma jobs_at_the_end P w firms i f :
  firms !! i = Some f →
  ∃ more,
    fst (passes P w firms) !! i
    = Some (set_jobs
              ((fetchGreenhouseJobs P w (greenhouse_slug f)
                ++ fetchLeverJobs P w (lever_slug f)) ++ more) f)
    ∧ NoDup (title <$> more)
    ∧ ∀ j, j ∈ more →
        (title j ∉ title <$> (fetchGreenhouseJobs P w (greenhouse_slug f)
                              ++ fetchLeverJobs P w (lever_slug f))%list)
        ∧ ∃ k r,
            fetchJSearchJobs w (Js.or_else (JSEARCH_API_KEY w) "") !! k = Some r
            ∧ j = jsearch_job P (clock w AtJSearch k) r.
Proof.
  intros Hf. rewrite fst_passes.
  set (boards := (fetchGreenhouseJobs P w (greenhouse_slug f)
                  ++ fetchLeverJobs P w (lever_slug f))%list).
  set (after_boards := FetcherFacts.provider_passes P w firms).
  assert (Hi : after_boards !! i = Some (set_jobs boards f)).
  { unfold after_boards.
    by rewrite FetcherFacts.provider_passes_fmap, list_lookup_fmap, Hf. }
  destruct (add_matched_spec
              (fst (matchJSearchToFirms P w
                      (fetchJSearchJobs w (Js.or_else (JSEARCH_API_KEY w) ""))
                      after_boards))
              after_boards i _ Hi) as (more & Hmore & Hdup & Hin).
  exists more. split_and!.
  - by rewrite Hmore, FetcherFacts.push_jobs_set_jobs.
  - done.
  - intros j Hj. destruct (Hin j Hj) as [Hm Hnew]. split; [done|].
    apply elem_of_matched in Hm as (k & r & Hk & -> & _). by exists k, r.
Qed.

(** X21. At the end of the passes a firm is as in the database but for
    its jobs, which are those of its Greenhouse board, then those of its
    Lever board, then jobs made from results of the aggregator, with
    titles that differ from each other and from those of the boards. The
    jobs that the database had are not among them. *)
Theorem final_jobs_by_source (P : platform) (w : world)
    (firms : list firm_record) (i : nat) (f : firm_record) :
  firms !! i = Some f →
  let boards :=
    (fetchGreenhouseJobs P w (greenhouse_slug f)
     ++ fetchLeverJobs P w (lever_slug f))%list in
  ∃ more,
    fst (passes P w firms) !! i = Some (set_jobs (boards ++ more) f)
    ∧ NoDup (title <$> more)
    ∧ ∀ j, j ∈ more →
        (title j ∉ title <$> boards)
        ∧ ∃ k r,
            fetchJSearchJobs w (Js.or_else (JSEARCH_API_KEY w) "") !! k = Some r
            ∧ j = jsearch_job P (clock w AtJSearch k) r.
Proof. intros Hf boards. by apply jobs_at_the_end. Qed.

Lemma final_jobs_by_source_witness :
  let P := FetcherFacts.demo_platform in
  let w := FetcherFacts.demo_world 0 (Some "key") in
  [FetcherFacts.acme] !! 0 = Some FetcherFacts.acme
  ∧ jobs <$> fst (passes P w [FetcherFacts.acme])
    = [[Job "Architect" (JStr "Full-time") "See listing" "Today" "";
        Job "Designer" (JStr "Full-time") "See listing" "Recently" ""]]
  ∧ ∃ more,
      fst (passes P w [FetcherFacts.acme]) !! 0
      = Some (set_jobs
                ((fetchGreenhouseJobs P w (greenhouse_slug FetcherFacts.acme)
                  ++ fetchLeverJobs P w (lever_slug FetcherFacts.acme))
                 ++ more) FetcherFacts.acme)
      ∧ NoDup (title <$> more).
Proof.
  intros P w. split; [reflexivity|]. split; [vm_compute; reflexivity|].
  destruct (final_jobs_by_source P w [FetcherFacts.acme] 0 FetcherFacts.acme eq_refl)
    as (more & Hmore & Hdup & _).
  by exists more.
Defined.

(** ** The shape of a job *)

(** A job has a title, a type, a salary text and a posted text. *)
Definition well_formed (j : job_record) : Prop :=
  title j ≠ "" ∧ truthy (type j) = true ∧ salary j ≠ "" ∧ posted j ≠ "".

Lemma or_else_nonempty o d : d ≠ "" → Js.or_else o d ≠ "".
Proof.
  intros Hd. destruct o as [s|]; [|done]. unfold Js.or_else.
  by destruct (String.eqb_spec s "").
Qed.

Lemma append_nonempty s t : t ≠ "" → s ++ t ≠ "".
Proof.
  intros Ht. destruct s as [|c s]; [by rewrite ReLaws.append_nil_l|].
  by rewrite ReLaws.append_cons.
Qed.

Lemma timeAgo_nonempty P now dateStr : timeAgo P now dateStr ≠ "".
Proof.
  unfold timeAgo, ago. destruct (Date_parse P dateStr); [|done].
  repeat case_match; try done; by apply append_nonempty.
Qed.

Lemma extractType_truthy ghJob : truthy (extractType ghJob) = true.
Proof.
  unfold extractType.
  destruct (match Gh.metadata ghJob with Some _ => _ | None => _ end)
    as [m|] eqn:Hm.
  { destruct (Gh.metadata ghJob) as [metadata|]; [|done].
    apply find_some in Hm as [_ Hm]. by apply andb_prop in Hm as [_ Hm]. }
  destruct (Gh.departments ghJob) as [[|first rest]|];
    repeat (destruct (Re.test _ _); [reflexivity|]); reflexivity.
Qed.

Section Shapes.

Variable P : platform.
Variable w : world.

Lemma fetchGreenhouseJobs_well_formed slug :
  Forall well_formed (fetchGreenhouseJobs P w slug).
Proof.
  unfold fetchGreenhouseJobs. destruct (negb _); [constructor|].
  destruct (greenhouse_api w _) as [|status [[postings|]|]]; try constructor;
    destruct (negb (ok status)); try constructor.
  apply Forall_lookup. intros k j. rewrite list_lookup_imap.
  destruct (postings !! k) as [posting|]; [|done]. intros [= <-].
  split_and!; cbn [title type salary posted].
  - by apply or_else_nonempty.
  - apply extractType_truthy.
  - done.
  - destruct (Js.truthy _); [apply timeAgo_nonempty|done].
Qed.

Lemma lever_job_well_formed now posting job :
  lever_job P now posting = Some job → well_formed job.
Proof.
  unfold lever_job. intros Hjob.
  destruct (if nonzero _ then _ else _) as [text|] eqn:Hposted; [|done].
  injection Hjob as <-. split_and!; cbn [title type salary posted truthy].
  - by apply or_else_nonempty.
  - apply negb_true_iff, String.eqb_neq. by apply or_else_nonempty.
  - done.
  - destruct (nonzero _); [|by injection Hposted as <-].
    destruct (Date_toISOString P _); [|done].
    injection Hposted as <-. apply timeAgo_nonempty.
Qed.

Lemma fetchLeverJobs_well_formed slug :
  Forall well_formed (fetchLeverJobs P w slug).
Proof.
  unfold fetchLeverJobs. destruct (negb _); [constructor|].
  destruct (lever_api w _) as [|status [[postings|]|]]; try constructor;
    destruct (negb (ok status)); try constructor.
  destruct (mapM _ _) as [jobs|] eqn:Hjobs; [|constructor].
  apply mapM_Some in Hjobs. cbn [default].
  induction Hjobs as [|[k posting] job ? ? Hjob _ IH]; constructor; [|done].
  by eapply lever_job_well_formed.
Qed.

Lemma jsearch_job_well_formed now j : well_formed (jsearch_job P now j).
Proof.
  unfold jsearch_job. split_and!; cbn [title type salary posted truthy].
  - by apply or_else_nonempty.
  - apply negb_true_iff, String.eqb_neq. by apply or_else_nonempty.
  - destruct (_ && _); [|done]. by rewrite ReLaws.append_cons.
  - destruct (Js.truthy _); [apply timeAgo_nonempty|done].
Qed.

End Shapes.

(** X22. Every job of every firm at the end of the passes has a title, a
    type, a salary text and a posted text, whatever the providers and
    the aggregator have answered. *)
Theorem final_jobs_well_formed (P : platform) (w : world)
    (firms : list firm_record) :
  Forall (λ f, Forall well_formed (jobs f)) (fst (passes P w firms)).
Proof.
  apply Forall_lookup. intros i f' Hf'.
  assert (is_Some (firms !! i)) as [f Hf].
  { apply lookup_lt_is_Some. apply lookup_lt_Some in Hf'.
    rewrite fst_passes in Hf'.
    pose proof (FetcherFacts.add_matched_pushes
                  (fst (matchJSearchToFirms P w
                          (fetchJSearchJobs w (Js.or_else (JSEARCH_API_KEY w) ""))
                          (FetcherFacts.provider_passes P w firms)))
                  (FetcherFacts.provider_passes P w firms)) as Hlen.
    apply Forall2_length in Hlen. rewrite <- Hlen in Hf'.
    by rewrite FetcherFacts.provider_passes_fmap, length_fmap in Hf'. }
  destruct (jobs_at_the_end P w firms i f Hf)
    as (more & Hmore & _ & Hin).
  rewrite Hmore in Hf'. injection Hf' as <-.
  change (jobs (set_jobs ?js f)) with js.
  rewrite !Forall_app. split_and!.
  - apply fetchGreenhouseJobs_well_formed.
  - apply fetchLeverJobs_well_formed.
  - apply Forall_forall. intros j Hj.
    destruct (Hin j Hj) as (_ & k & r & _ & ->).
    apply jsearch_job_well_formed.
Qed.

(** ** Batches and the order of the handlers *)

(** X23. [batchProcess] hands every item to the handler once, in the
    order of the list: the batches do not show in the result. *)
Theorem batchProcess_every_item_in_order {S A : Type} (items : list A)
    (fn : A -> S -> S) (st : S) :
  batchProcess items fn 0 st = foldl (λ st x, fn x st) st items.
Proof. by rewrite FetcherFacts.batchProcess_foldl, drop_0. Qed.

(** X24. The handlers of a provider pass touch a firm each: in whatever
    order they run on the firms with a slug, the firms are at the end as
    the pass leaves them. *)
Theorem provider_pass_any_order (P : platform) (w : world)
    (firms : list firm_record) (ghOrder lvOrder : list nat) :
  ghOrder ≡ₚ refs_where (λ f, Js.truthy (greenhouse_slug f)) firms →
  lvOrder ≡ₚ refs_where (λ f, Js.truthy (lever_slug f)) firms →
  foldl (λ st x, greenhouse_handler P w x st) firms ghOrder
  = greenhouse_pass P w firms
  ∧ foldl (λ st x, lever_handler P w x st) firms lvOrder
    = lever_pass P w firms.
Proof.
  intros Hgh Hlv. unfold greenhouse_pass, lever_pass.
  rewrite !FetcherFacts.batchProcess_foldl, !drop_0. split.
  - symmetry. apply FetcherFacts.greenhouse_handlers_commute;
      [apply FetcherFacts.NoDup_refs_where|done].
  - symmetry. apply FetcherFacts.lever_handlers_commute;
      [apply FetcherFacts.NoDup_refs_where|done].
Qed.

Lemma provider_pass_any_order_witness :
  let P := FetcherFacts.demo_platform in
  let w := FetcherFacts.demo_world 0 None in
  let firms := [FetcherFacts.acme; set_greenhouse_slug "other" FetcherFacts.acme] in
  [1; 0] ≡ₚ refs_where (λ f, Js.truthy (greenhouse_slug f)) firms
  ∧ foldl (λ st x, greenhouse_handler P w x st) firms [1; 0]
    = greenhouse_pass P w firms.
Proof.
  intros P w firms.
  assert (Hgh : [1; 0] ≡ₚ refs_where (λ f, Js.truthy (greenhouse_slug f)) firms).
  { assert (refs_where (λ f, Js.truthy (greenhouse_slug f)) firms = [0; 1])
      as -> by (vm_compute; reflexivity).
    apply Permutation_swap. }
  assert (Hlv : [0; 1] ≡ₚ refs_where (λ f, Js.truthy (lever_slug f)) firms).
  { assert (refs_where (λ f, Js.truthy (lever_slug f)) firms = [0; 1])
      as -> by (vm_compute; reflexivity).
    reflexivity. }
  split; [exact Hgh|].
  exact (proj1 (provider_pass_any_order P w firms [1; 0] [0; 1] Hgh Hlv)).
Defined.

(** ** The postings of Lever *)

(** X25. The jobs of a Lever board are all or nothing: when the date of
    one posting cannot be put in ISO form, the firm gets no job of the
    board; when every date can, it gets one job for each posting, in the
    order of the board. *)
Theorem fetchLeverJobs_all_or_nothing (P : platform) (w : world)
    (slug : string) (status : Z) (postings : list Lv.posting) :
  slug ≠ "" →
  lever_api w ("https://api.lever.co/v0/postings/" ++ slug ++ "?mode=json")
  = Reply status (Some (Some postings)) →
  ok status = true →
  let bad (j : Lv.posting) :=
    nonzero (Lv.createdAt j) = true
    ∧ Date_toISOString P (default 0%Z (Lv.createdAt j)) = None in
  (Exists bad postings → fetchLeverJobs P w (Some slug) = [])
  ∧ (¬ Exists bad postings →
     title <$> fetchLeverJobs P w (Some slug)
     = (λ j, Js.or_else (Lv.text j) "Untitled") <$> postings).
Proof.
  intros Hslug Hapi Hok bad. unfold fetchLeverJobs, Js.truthy.
  apply String.eqb_neq in Hslug as ->. cbn [negb].
  change (default "" (Some slug)) with slug. cbv zeta.
  rewrite Hapi, Hok. cbn [negb].
  assert (Hbad : ∀ now j, lever_job P now j = None ↔ bad j).
  { intros now j. unfold lever_job, bad.
    destruct (nonzero (Lv.createdAt j)); [|by split; [|intros [? _]]].
    destruct (Date_toISOString P _); by split; [|intros [_ ?]]. }
  split.
  - intros Hex. rewrite (mapM_None_2 _ (imap pair postings)); [done|].
    apply Exists_exists in Hex as (j & [k Hk]%list_elem_of_lookup & Hj).
    apply Exists_exists. exists (k, j). split.
    + by apply (elem_of_lookup_imap_2 pair postings).
    + by apply Hbad.
  - intros Hnone.
    destruct (mapM _ _) as [jobs|] eqn:Hjobs.
    2:{ exfalso. apply Hnone. apply mapM_None_1 in Hjobs.
        apply Exists_exists in Hjobs as ([k j] & Hin & Hj).
        apply elem_of_lookup_imap in Hin as (k' & j' & [= -> ->] & Hk).
        apply Exists_exists. exists j'. split.
        - apply list_elem_of_lookup. by exists k'.
        - by eapply Hbad. }
    change (default [] (Some jobs)) with jobs. apply mapM_Some in Hjobs.
    apply list_eq. intros k. rewrite !list_lookup_fmap.
    destruct (postings !! k) as [j|] eqn:Hk.
    + assert (Hkj : imap pair postings !! k = Some (k, j))
        by (by rewrite list_lookup_imap, Hk).
      destruct (Forall2_lookup_l _ _ _ _ _ Hjobs Hkj) as (job & -> & Hjob).
      cbn [fst snd] in Hjob. unfold lever_job in Hjob.
      destruct (if nonzero _ then _ else _); [|done].
      by injection Hjob as <-.
    + apply Forall2_length in Hjobs. rewrite length_imap in Hjobs.
      apply lookup_ge_None in Hk. rewrite lookup_ge_None_2 by lia. done.
Qed.

Lemma fetchLeverJobs_all_or_nothing_witness :
  let P := Platform (λ _, Some 0%Z) (λ _, None) (λ _ _, "") (λ _, None) in
  let postings :=
    [Lv.Posting (Some "Architect") None None None;
     Lv.Posting (Some "Designer") None (Some 1%Z) None] in
  let w :=
    World (λ _, NoReply) (λ _, Reply 200 (Some (Some postings)))
      (λ _ _, NoReply) (λ _ _, 0%Z) None in
  ok 200 = true ∧ fetchLeverJobs P w (Some "acme") = [].
Proof.
  intros P postings w. split; [reflexivity|].
  apply (fetchLeverJobs_all_or_nothing P w "acme" 200 postings);
    [discriminate | reflexivity | reflexivity |].
  apply Exists_cons_tl, Exists_cons_hd. split; reflexivity.
Defined.

(** ** The files of a run *)

(** X26. A run of the fetcher writes the output file and, at most, the
    discoveries file: every other file, the firm database among them, is
    after the run as it was before. *)
Theorem main_writes_two_files_only (P : platform) (w : world)
    (files files' : gmap string string) :
  main P w files = Some files' →
  is_Some (files' !! OUTPUT)
  ∧ files' !! FIRMS_BASE = files !! FIRMS_BASE
  ∧ ∀ path, path ≠ OUTPUT → path ≠ DISCOVERIES → files' !! path = files !! path.
Proof.
  unfold main. intros Hmain.
  destruct (files !! FIRMS_BASE) as [text|] eqn:Hbase;
    cbn [mbind option_bind] in Hmain; [|discriminate].
  destruct (read_firms P text) as [firms|];
    cbn [mbind option_bind] in Hmain; [|discriminate].
  destruct (passes P w firms) as [firms' unmatched].
  injection Hmain as <-.
  assert (Hframe : ∀ path, path ≠ OUTPUT → path ≠ DISCOVERIES →
            (<[OUTPUT := JSON_stringify P (JArr (output_record <$> firms')) 0]>
               match unmatched with
               | Some unmatched =>
                   <[DISCOVERIES :=
                       JSON_stringify P (JArr (json_of_discovery <$> unmatched)) 2]>
                     files
               | None => files
               end) !! path = files !! path).
  { intros path Hout Hdisc. rewrite lookup_insert_ne by done.
    destruct unmatched; [|done]. by rewrite lookup_insert_ne. }
  split_and!.
  - rewrite lookup_insert_eq. by eexists.
  - by rewrite Hframe.
  - exact Hframe.
Qed.

Lemma main_writes_two_files_only_witness :
  let P := FetcherFacts.demo_platform in
  let w := FetcherFacts.demo_world 0 None in
  is_Some (main P w FetcherFacts.demo_files)
  ∧ ∃ files',
      main P w FetcherFacts.demo_files = Some files'
      ∧ files' !! FIRMS_BASE = FetcherFacts.demo_files !! FIRMS_BASE.
Proof.
  intros P w.
  assert (Hmain : is_Some (main P w FetcherFacts.demo_files)).
  { apply FetcherFacts.main_Some. by eexists. }
  split; [exact Hmain|].
  destruct Hmain as [files' Hmain]. exists files'. split; [exact Hmain|].
  exact (proj1 (proj2 (main_writes_two_files_only P w _ files' Hmain))).
Defined.
End FetcherLaws.
